(** * dtd-to-go: the DTD parser and the Go struct generator

    A shallow embedding of [dtd_parser.go] (types [DTDParser], [DTDElement],
    [DTDAttribute], [ParseResult]) and [struct_generator.go] (type
    [StructGenerator]), and the properties of the two-stage pipeline
    text -> declarations -> struct definitions.

    Go strings are byte sequences and are modelled by [string] (a list of
    8-bit characters).  The functions of Go's [strings], [unicode] and
    [regexp] packages that the program calls are modelled on bytes:
    - [TrimSpace] and [Fields] recognise the white space of
      [unicode.IsSpace] through its UTF-8 encodings, which is what decoding
      rune by rune gives on every byte sequence;
    - the regular expressions of the program only name ASCII characters
      and [.], so matching byte by byte and rune by rune agree;
    - the identifiers are built rune by rune: [[]rune(s)], [string(runes)]
      and [strings.Map] decode and encode UTF-8 as package [utf8] does
      (a byte that is no rune becomes U+FFFD), and the case mappings and
      categories of package [unicode] above U+007F are the tables
      [UnicodeTables], a parameter of the generator.
    Go's [map] is a [gmap] and a slice is a [list]; the [int] indices and
    counters are [nat] or [Z], since no string is long enough for a 64-bit
    [int] to wrap around. *)

From Stdlib Require Import Ascii NArith ZArith Lia.
From stdpp Require Import base option list strings gmap fin_maps.

Local Open Scope char_scope.

(** ** Go's [strings] and [unicode] packages *)

Module Strings.

Definition code (c : ascii) : N := N_of_ascii c.

Definition in_range (lo hi : N) (c : ascii) : bool :=
  ((lo <=? code c) && (code c <=? hi))%N.

Definition chars (s : string) : list ascii := String.list_ascii_of_string s.
Definition str (l : list ascii) : string := String.string_of_list_ascii l.

(** [strings.HasPrefix(s, prefix)] *)
Definition HasPrefix (s prefix : string) : bool := String.prefix prefix s.

(** [strings.HasSuffix(s, suffix)] *)
Definition HasSuffix (s suffix : string) : bool :=
  String.prefix (String.rev suffix) (String.rev s).

(** [strings.Contains(s, substr)] *)
Fixpoint Contains (s substr : string) : bool :=
  String.prefix substr s ||
  match s with
  | EmptyString => false
  | String _ s' => Contains s' substr
  end.

(** [strings.TrimPrefix(s, prefix)] *)
Definition TrimPrefix (s prefix : string) : string :=
  if HasPrefix s prefix
  then String.substring (String.length prefix)
                        (String.length s - String.length prefix) s
  else s.

(** [strings.TrimSuffix(s, suffix)] *)
Definition TrimSuffix (s suffix : string) : string :=
  if HasSuffix s suffix
  then String.substring 0 (String.length s - String.length suffix) s
  else s.

(** [s[:len(s)-n]] for [n <= len(s)] *)
Definition dropLast (n : nat) (s : string) : string :=
  String.substring 0 (String.length s - n) s.

(** Width in bytes of the white-space rune ([unicode.IsSpace]) that the
    bytes start with; [0] when they start with none.  The runes are
    U+0009..U+000D, U+0020, U+0085, U+00A0, U+1680, U+2000..U+200A,
    U+2028, U+2029, U+202F, U+205F and U+3000. *)
Definition spaceWidth (l : list ascii) : nat :=
  match l with
  | c :: l1 =>
      if in_range 9 13 c || (code c =? 32)%N then 1
      else match l1 with
      | d :: l2 =>
          if (code c =? 194)%N && ((code d =? 133)%N || (code d =? 160)%N)
          then 2
          else match l2 with
          | e :: _ =>
              if (code c =? 225)%N && (code d =? 154)%N && (code e =? 128)%N
              then 3
              else if (code c =? 226)%N && (code d =? 128)%N &&
                      (in_range 128 138 e || in_range 168 169 e ||
                       (code e =? 175)%N)
              then 3
              else if (code c =? 226)%N && (code d =? 129)%N &&
                      (code e =? 159)%N
              then 3
              else if (code c =? 227)%N && (code d =? 128)%N &&
                      (code e =? 128)%N
              then 3
              else 0
          | [] => 0
          end
      | [] => 0
      end
  | [] => 0
  end.

(** The same looking at the end of the bytes, given in reverse. *)
Definition spaceWidthRev (r : list ascii) : nat :=
  match r with
  | c :: r1 =>
      if (spaceWidth [c] =? 1)%nat then 1
      else match r1 with
      | d :: r2 =>
          if (spaceWidth [d; c] =? 2)%nat then 2
          else match r2 with
          | e :: _ => if (spaceWidth [e; d; c] =? 3)%nat then 3 else 0
          | [] => 0
          end
      | [] => 0
      end
  | [] => 0
  end.

(** Strips the white-space runes at the front; [skip] counts the bytes
    of the rune being passed. *)
Fixpoint trimFront (width : list ascii → nat) (l : list ascii) (skip : nat)
  : list ascii :=
  match l with
  | [] => []
  | _ :: l' =>
      match skip with
      | S k => trimFront width l' k
      | O =>
          match width l with
          | O => l
          | S k => trimFront width l' k
          end
      end
  end.

Definition trimLeftSpace (l : list ascii) : list ascii :=
  trimFront spaceWidth l 0.

Definition trimRightSpace (l : list ascii) : list ascii :=
  rev (trimFront spaceWidthRev (rev l) 0).

(** [strings.TrimSpace(s)] *)
Definition TrimSpace (s : string) : string :=
  str (trimRightSpace (trimLeftSpace (chars s))).

(** The field read so far, if it is not empty. *)
Definition flush (cur : list ascii) : list string :=
  match cur with [] => [] | _ :: _ => [str (rev cur)] end.

(** [strings.FieldsFunc] on the bytes: [sep] gives the width of the
    separator at the front ([0]: none); [cur] is the field being read, in
    reverse; [skip] counts the bytes of a separator still to pass. *)
Fixpoint fieldsAux (sep : list ascii → nat) (l : list ascii) (skip : nat)
    (cur : list ascii) : list string :=
  match l with
  | [] => flush cur
  | c :: l' =>
      match skip with
      | S k => fieldsAux sep l' k cur
      | O =>
          match sep l with
          | O => fieldsAux sep l' 0 (c :: cur)
          | S k =>
              flush cur ++ fieldsAux sep l' k []
          end
      end
  end.

(** [strings.Fields(s)]: the maximal runs without white space. *)
Definition Fields (s : string) : list string :=
  fieldsAux spaceWidth (chars s) 0 [].

(** [strings.FieldsFunc(s, f)] for a predicate [f] that holds of ASCII
    characters only. *)
Definition FieldsFunc (s : string) (f : ascii → bool) : list string :=
  fieldsAux (λ l, match l with c :: _ => if f c then 1 else 0 | [] => 0 end)
            (chars s) 0 [].

Fixpoint dropWhile (f : ascii → bool) (l : list ascii) : list ascii :=
  match l with
  | c :: l' => if f c then dropWhile f l' else l
  | [] => []
  end.

(** [strings.Trim(s, cutset)] for an ASCII [cutset]. *)
Definition Trim (s cutset : string) : string :=
  let cut c := bool_decide (c ∈ chars cutset) in
  str (rev (dropWhile cut (rev (dropWhile cut (chars s))))).

(** ** Runes and UTF-8: packages [unicode/utf8] and [unicode] *)

(** A rune is a code point, Go's [int32]. *)
Definition rune : Type := Z.

Definition RuneError : rune := 0xFFFD%Z.
Definition MaxRune : rune := 0x10FFFF%Z.
Definition MaxASCII : rune := 0x7F%Z.
Definition MaxLatin1 : rune := 0xFF%Z.

(** A byte as a number, and the conversion [byte(x)] of a number: its low
    eight bits. *)
Definition byteOf (c : ascii) : Z := Z.of_N (code c).
Definition low8 (x : Z) : Z := (x mod 256)%Z.
Definition toByte (x : Z) : ascii := ascii_of_N (Z.to_N (low8 x)).

(** The table [first] of package [utf8] with its [acceptRanges]: for a
    leading byte, the size of its sequence and the range its second byte
    must lie in; [None] for the ASCII bytes and the bytes that lead no
    sequence. *)
Definition firstTable (s0 : Z) : option (nat * (Z * Z)) :=
  (if s0 <? 0xC2 then None
   else if s0 <=? 0xDF then Some (2%nat, (0x80, 0xBF))
   else if s0 =? 0xE0 then Some (3%nat, (0xA0, 0xBF))
   else if s0 <=? 0xEC then Some (3%nat, (0x80, 0xBF))
   else if s0 =? 0xED then Some (3%nat, (0x80, 0x9F))
   else if s0 <=? 0xEF then Some (3%nat, (0x80, 0xBF))
   else if s0 =? 0xF0 then Some (4%nat, (0x90, 0xBF))
   else if s0 <=? 0xF3 then Some (4%nat, (0x80, 0xBF))
   else if s0 =? 0xF4 then Some (4%nat, (0x80, 0x8F))
   else None)%Z.

(** [s[i]] for an index the code has checked. *)
Definition byteAt (l : list ascii) (i : nat) : Z := byteOf (nth i l zero).

(** [utf8.DecodeRuneInString]: the rune the bytes start with and its
    width; a byte that starts no well-formed sequence is [RuneError] of
    width 1. *)
Definition DecodeRune (l : list ascii) : rune * nat :=
  match l with
  | [] => (RuneError, 0%nat)
  | c0 :: _ =>
      let s0 := byteOf c0 in
      match firstTable s0 with
      | None => (if (s0 <? 0x80)%Z then s0 else RuneError, 1%nat)
      | Some (sz, (lo, hi)) =>
          if (length l <? sz)%nat then (RuneError, 1%nat)
          else
            let s1 := byteAt l 1 in
            if ((s1 <? lo) || (hi <? s1))%Z then (RuneError, 1%nat)
            else if (sz <=? 2)%nat
            then (Z.lor (Z.shiftl (Z.land s0 0x1F) 6) (Z.land s1 0x3F),
                  2%nat)
            else
              let s2 := byteAt l 2 in
              if ((s2 <? 0x80) || (0xBF <? s2))%Z then (RuneError, 1%nat)
              else if (sz <=? 3)%nat
              then (Z.lor (Z.lor (Z.shiftl (Z.land s0 0x0F) 12)
                                 (Z.shiftl (Z.land s1 0x3F) 6))
                          (Z.land s2 0x3F),
                    3%nat)
              else
                let s3 := byteAt l 3 in
                if ((s3 <? 0x80) || (0xBF <? s3))%Z then (RuneError, 1%nat)
                else (Z.lor (Z.lor (Z.lor (Z.shiftl (Z.land s0 0x07) 18)
                                          (Z.shiftl (Z.land s1 0x3F) 12))
                                   (Z.shiftl (Z.land s2 0x3F) 6))
                            (Z.land s3 0x3F),
                      4%nat)
      end
  end.

(** The runes of the bytes, as [for _, c := range s] and [[]rune(s)] give
    them; [skip] counts the bytes of the rune being passed. *)
Fixpoint runesAux (l : list ascii) (skip : nat) : list rune :=
  match l with
  | [] => []
  | _ :: l' =>
      match skip with
      | S k => runesAux l' k
      | O => let '(r, width) := DecodeRune l in r :: runesAux l' (width - 1)
      end
  end.

Definition runes (s : string) : list rune := runesAux (chars s) 0.

(** [utf8.AppendRune]: the bytes of a rune, as numbers; [RuneError] stands
    for a surrogate and for a number that is no code point. *)
Definition encode (r : rune) : list Z :=
  let i := (r mod 2 ^ 32)%Z in                          (* [uint32(r)] *)
  let three (r : rune) :=
    [Z.lor 0xE0 (low8 (Z.shiftr r 12));
     Z.lor 0x80 (Z.land (low8 (Z.shiftr r 6)) 0x3F);
     Z.lor 0x80 (Z.land (low8 r) 0x3F)]%Z in
  if (i <=? 0x7F)%Z then [low8 r]
  else if (i <=? 0x7FF)%Z
  then [Z.lor 0xC0 (low8 (Z.shiftr r 6)); Z.lor 0x80 (Z.land (low8 r) 0x3F)]%Z
  else if ((MaxRune <? i) || ((0xD800 <=? i) && (i <=? 0xDFFF)))%Z
  then three RuneError
  else if (i <=? 0xFFFF)%Z then three r
  else [Z.lor 0xF0 (low8 (Z.shiftr r 18));
        Z.lor 0x80 (Z.land (low8 (Z.shiftr r 12)) 0x3F);
        Z.lor 0x80 (Z.land (low8 (Z.shiftr r 6)) 0x3F);
        Z.lor 0x80 (Z.land (low8 r) 0x3F)]%Z.

Definition EncodeRune (r : rune) : list ascii := toByte <$> encode r.

(** [string(runes)] *)
Definition stringOfRunes (l : list rune) : string :=
  str (flat_map EncodeRune l).

(** [unicode.IsSpace] *)
Definition IsSpace (r : rune) : bool :=
  (if r <=? MaxLatin1
   then (r =? 0x09) || (r =? 0x0A) || (r =? 0x0B) || (r =? 0x0C)
        || (r =? 0x0D) || (r =? 0x20) || (r =? 0x85) || (r =? 0xA0)
   else (r =? 0x1680) || ((0x2000 <=? r) && (r <=? 0x200A))
        || (r =? 0x2028) || (r =? 0x2029) || (r =? 0x202F) || (r =? 0x205F)
        || (r =? 0x3000))%Z.

(** The tables of package [unicode] that the program reaches for the
    runes above U+007F: the upper-case and the title-case mapping
    ([unicode.To]) and the categories of letters and of digits.  They are
    data of Go's library, taken from the Unicode Character Database;
    what is proved below holds whatever they contain, or says what it
    needs of them. *)
Class UnicodeTables : Type := {
  toUpperCase : rune → rune;
  toTitleCase : rune → rune;
  isLetter : rune → bool;
  isDigit : rune → bool
}.

Section Case.
Context {U : UnicodeTables}.

(** [unicode.ToUpper] *)
Definition ToUpperRune (r : rune) : rune :=
  (if r <=? MaxASCII
   then if (0x61 <=? r) && (r <=? 0x7A) then r - 0x20 else r
   else toUpperCase r)%Z.

(** [unicode.ToTitle] *)
Definition ToTitleRune (r : rune) : rune :=
  (if r <=? MaxASCII
   then if (0x61 <=? r) && (r <=? 0x7A) then r - 0x20 else r
   else toTitleCase r)%Z.

(** What [strings.Map] writes for the rune its mapping returns: the
    encoding of the rune, nothing for a negative number. *)
Definition writeRune (r : rune) : list ascii :=
  if (0 <=? r)%Z then EncodeRune r else [].

(** [strings.Map(mapping, s)]: the mapping of each rune of [s], written
    in turn.  [Map] copies the runes that the mapping keeps, up to the
    first one it changes, as they stand in [s], which is their encoding;
    a byte that is no rune counts as changed and is written as the
    mapping of [RuneError]. *)
Definition Map (mapping : rune → rune) (s : string) : string :=
  str (flat_map (λ c, writeRune (mapping c)) (runes s)).

(** [strings.ToUpper(s)]: byte by byte when all of [s] is ASCII. *)
Definition ToUpper (s : string) : string :=
  if forallb (λ c, (code c <? 128)%N) (chars s)
  then str ((λ c, if in_range 97 122 c then ascii_of_N (code c - 32) else c)
            <$> chars s)
  else Map ToUpperRune s.

(** [isSeparator] of package [strings] *)
Definition isSeparator (r : rune) : bool :=
  (if r <=? 0x7F
   then
     if (0x30 <=? r) && (r <=? 0x39) then false
     else if (0x61 <=? r) && (r <=? 0x7A) then false
     else if (0x41 <=? r) && (r <=? 0x5A) then false
     else if r =? 0x5F then false
     else true
   else if isLetter r || isDigit r then false
   else IsSpace r)%Z.

(** The closure of [strings.Title] over the runes, [prev] being the rune
    before. *)
Fixpoint titleAux (prev : rune) (l : list rune) : list rune :=
  match l with
  | [] => []
  | r :: l' =>
      (if isSeparator prev then ToTitleRune r else r) :: titleAux r l'
  end.

(** [strings.Title(s)]: [strings.Map] with the closure above, which is
    called once for each rune, in order. *)
Definition Title (s : string) : string :=
  str (flat_map writeRune (titleAux 0x20%Z (runes s))).

End Case.

(** [strings.Builder]: [WriteString] of each piece in turn. *)
Definition writeAll (l : list string) : string :=
  foldr String.append EmptyString l.

End Strings.

(** ** Go's [regexp] package, for the expressions the program compiles *)

Module Regexp.
Import Strings.

(** Concatenations of literals, character classes repeated one or more
    times (greedy [+] or lazy [+?]) and capturing groups. *)
Inductive regex : Type :=
| Lit (s : string)
| Plus (greedy : bool) (class : ascii → bool)
| Group (r : regex)
| Seq (r1 r2 : regex).

(** [\s]: tab, line feed, form feed, carriage return, space. *)
Definition class_s (c : ascii) : bool :=
  bool_decide (c ∈ ["009"; "010"; "012"; "013"; " "]).

(** [\w]: [0-9A-Za-z_]. *)
Definition class_w (c : ascii) : bool :=
  in_range 48 57 c || in_range 65 90 c || in_range 97 122 c
  || (code c =? 95)%N.

(** [[\w-]] *)
Definition class_w_dash (c : ascii) : bool := class_w c || (code c =? 45)%N.

(** [.]: any character but the line feed. *)
Definition class_dot (c : ascii) : bool := negb (code c =? 10)%N.

Section Matcher.
Context {R : Type}.

(** After one character of the class was read: zero or more of them,
    the longest run first when greedy, the shortest first when lazy;
    [k] continues with the rest of the input and [None] backtracks. *)
Fixpoint more (greedy : bool) (class : ascii → bool) (s : string)
    (k : string → option R) : option R :=
  match s with
  | String c s' =>
      if class c then
        if greedy
        then match more greedy class s' k with
             | Some r => Some r
             | None => k s
             end
        else match k s with
             | Some r => Some r
             | None => more greedy class s' k
             end
      else k s
  | EmptyString => k s
  end.

(** Backtracking matcher with the priorities of leftmost-first
    matching: [k] receives the rest of the input and the captured
    groups, last closed first. *)
Fixpoint run (r : regex) (s : string) (caps : list string)
    (k : string → list string → option R) : option R :=
  match r with
  | Lit l =>
      if String.prefix l s
      then k (String.substring (String.length l)
                (String.length s - String.length l) s) caps
      else None
  | Plus greedy class =>
      match s with
      | String c s' =>
          if class c then more greedy class s' (λ rest, k rest caps)
          else None
      | EmptyString => None
      end
  | Group r1 =>
      run r1 s caps (λ rest caps',
        k rest (String.substring 0 (String.length s - String.length rest) s
                :: caps'))
  | Seq r1 r2 =>
      run r1 s caps (λ rest caps', run r2 rest caps' k)
  end.
End Matcher.

(** The match at the start of [s], if any: its groups in order. *)
Definition matchHere (r : regex) (s : string) : option (list string) :=
  run r s [] (λ _ caps, Some (rev caps)).

(** [re.FindStringSubmatch(s)] without the whole match (index 0): the
    groups of the leftmost match, [None] for Go's [nil]. *)
Fixpoint FindStringSubmatch (r : regex) (s : string) : option (list string) :=
  match matchHere r s with
  | Some caps => Some caps
  | None =>
      match s with
      | String _ s' => FindStringSubmatch r s'
      | EmptyString => None
      end
  end.

(** [regexp.MustCompile(class).Split(s, -1)] for a class [sep] of single
    characters: the pieces between the separators. *)
Fixpoint splitAux (sep : ascii → bool) (l cur : list ascii) : list string :=
  match l with
  | [] => [str (rev cur)]
  | c :: l' =>
      if sep c then str (rev cur) :: splitAux sep l' []
      else splitAux sep l' (c :: cur)
  end.

Definition Split (sep : ascii → bool) (s : string) : list string :=
  splitAux sep (chars s) [].

(** [regexp.MustCompile(class).ReplaceAllString(s, "")] for a class of
    single characters: [s] without them. *)
Definition RemoveAll (class : ascii → bool) (s : string) : string :=
  str (filter (λ c, class c = false) (chars s)).

End Regexp.

Import Strings Regexp.
Local Close Scope char_scope.

Notation "a =? b" := (String.eqb a b) (at level 70) : stdpp_scope.

(** The characters the sources write with an escape. *)
Definition dquote : string := String "034"%char EmptyString.
Definition newline : string := String "010"%char EmptyString.
Definition tab : string := String "009"%char EmptyString.

(** ** dtd_parser.go *)

(** [DTDAttribute] *)
Record DTDAttribute : Type := mkAttribute {
  attr_Name : string;
  attr_Type : string;
  attr_DefaultValue : string;
  attr_Required : bool
}.

(** [DTDElement] *)
Record DTDElement : Type := mkElement {
  elem_Name : string;
  elem_Content : string;
  elem_Attributes : list DTDAttribute
}.

(** [ParseResult] *)
Record ParseResult : Type := mkParseResult {
  Elements : gmap string DTDElement;
  Order : list string
}.

(** [DTDParser] *)
Record DTDParser : Type := mkParser {
  elements : gmap string DTDElement;
  attributes : gmap string (list DTDAttribute);
  elementOrder : list string;
  entities : gmap string string
}.

(** [NewDTDParser] *)
Definition NewDTDParser : DTDParser :=
  {| elements := ∅; attributes := ∅; elementOrder := []; entities := ∅ |}.

(** [<!ENTITY\s+%\s+(\w+)\s+"(.+?)">] *)
Definition reEntity : regex :=
  Seq (Lit "<!ENTITY") (Seq (Plus true class_s) (Seq (Lit "%")
  (Seq (Plus true class_s) (Seq (Group (Plus true class_w))
  (Seq (Plus true class_s) (Seq (Lit dquote)
  (Seq (Group (Plus false class_dot)) (Lit (dquote +:+ ">"))))))))).

(** [<!ELEMENT\s+([\w-]+)\s+(.+?)>] *)
Definition reElement : regex :=
  Seq (Lit "<!ELEMENT") (Seq (Plus true class_s)
  (Seq (Group (Plus true class_w_dash)) (Seq (Plus true class_s)
  (Seq (Group (Plus false class_dot)) (Lit ">"))))).

(** [parseEntity]: records a parameter entity. *)
Definition parseEntity (p : DTDParser) (line : string) : DTDParser :=
  match FindStringSubmatch reEntity line with
  | Some [entityName; entityValue] =>
      {| elements := elements p; attributes := attributes p;
         elementOrder := elementOrder p;
         entities := <[entityName := entityValue]> (entities p) |}
  | _ => p
  end.

(** [parseElement]: records or replaces an element; its name enters the
    order the first time it is seen. *)
Definition parseElement (p : DTDParser) (line : string) : DTDParser :=
  match FindStringSubmatch reElement line with
  | Some [name; content] =>
      let content := TrimSpace content in
      let order :=
        match elements p !! name with
        | Some _ => elementOrder p
        | None => elementOrder p ++ [name]
        end in
      {| elements := <[name := mkElement name content []]> (elements p);
         attributes := attributes p;
         elementOrder := order;
         entities := entities p |}
  | _ => p
  end.

(** The three places that read a default: [#REQUIRED] sets [Required],
    [#IMPLIED] leaves the default unset, anything else is the default with
    its quotes trimmed. *)
Definition withDefault (name type defaultInfo : string) : DTDAttribute :=
  if defaultInfo =? "#REQUIRED" then mkAttribute name type EmptyString true
  else if negb (defaultInfo =? "#IMPLIED")
  then mkAttribute name type (Trim defaultInfo dquote) false
  else mkAttribute name type EmptyString false.

(** Index of the first part that contains [needle], counted from [i];
    [-1] when there is none. *)
Fixpoint firstContaining (needle : string) (parts : list string) (i : Z) : Z :=
  match parts with
  | [] => (-1)%Z
  | part :: parts' =>
      if Contains part needle then i
      else firstContaining needle parts' (i + 1)%Z
  end.

(** [parts[i]] for an index the code has checked, the zero value of a
    string otherwise read. *)
Definition at_ (parts : list string) (i : nat) : string :=
  default EmptyString (parts !! i).

(** [parseEntityValue]: the attribute an entity value stands for, appended
    to [attributes]. *)
Definition parseEntityValue (entityValue : string)
    (attributes : list DTDAttribute) : list DTDAttribute :=
  let parts := Fields entityValue in
  if (length parts <? 3)%nat then attributes
  else
    let attrName := at_ parts 0 in
    let typeEnd := firstContaining ")" parts 0 in
    let defaultInfo :=
      if (typeEnd + 1 <? Z.of_nat (length parts))%Z
      then at_ parts (Z.to_nat (typeEnd + 1))
      else EmptyString in
    attributes ++ [withDefault attrName "string" defaultInfo].

(** The inner loop of [parseAttributeList] over one part: [parenCount]
    after the opening and closing parentheses of [part]. *)
Definition countParens (part : string) (parenCount : Z) : Z :=
  foldl (λ n c, if (code c =? 40)%N then (n + 1)%Z
                else if (code c =? 41)%N then (n - 1)%Z else n)
        parenCount (chars part).

(** The scan for the end of a parenthesised type: [rest] is [parts[j:]];
    the result is the index at which the scan stops, [len(parts)] when it
    finds no end. *)
Fixpoint scanParens (rest : list string) (j : nat) (parenCount : Z) : nat :=
  match rest with
  | [] => j
  | part :: rest' =>
      let parenCount := countParens part parenCount in
      if (parenCount =? 0)%Z && Contains part ")" then j
      else scanParens rest' (S j) parenCount
  end.

(** One turn of the loop of [parseAttributeList] at index [i < len(parts)]:
    the attributes and the index after it. *)
Definition attrStep (entities : gmap string string) (parts : list string)
    (i : nat) (attributes : list DTDAttribute) : list DTDAttribute * nat :=
  let part := at_ parts i in
  if HasPrefix part "%" && HasSuffix part ";" then
    let entityName := TrimSuffix (TrimPrefix part "%") ";" in
    match entities !! entityName with
    | Some entityValue => (parseEntityValue entityValue attributes, S i)
    | None => (attributes, S i)
    end
  else if (i + 2 <? length parts)%nat then
    let attrName := at_ parts i in
    let attrType := at_ parts (i + 1) in
    let defaultInfo := at_ parts (i + 2) in
    if Contains attrType "(" then
      let j := scanParens (drop (i + 1) parts) (i + 1) 0 in
      if (j + 1 <? length parts)%nat
      then (attributes ++ [withDefault attrName "string" (at_ parts (j + 1))],
            j + 2)
      else (attributes, j + 2)
    else (attributes ++ [withDefault attrName attrType defaultInfo], i + 3)
  else (attributes, S i).

(** The loop [for i := 0; i < len(parts); ...]; every turn moves [i]
    forward, so [len(parts) - i] turns are enough. *)
Fixpoint attrLoop (fuel : nat) (entities : gmap string string)
    (parts : list string) (i : nat) (attributes : list DTDAttribute)
    : list DTDAttribute :=
  match fuel with
  | O => attributes
  | S fuel' =>
      if (i <? length parts)%nat then
        let '(attributes', i') := attrStep entities parts i attributes in
        attrLoop fuel' entities parts i' attributes'
      else attributes
  end.

(** What an [<!ATTLIST ...>] line declares: the element's name and the
    attributes, or nothing when the line has no part at all. *)
Definition attributeList (entities : gmap string string) (line : string)
    : option (string * list DTDAttribute) :=
  let content := TrimPrefix line "<!ATTLIST" in
  let content := TrimSuffix content ">" in
  let content := TrimSpace content in
  match Fields content with
  | [] => None
  | elementName :: parts =>
      Some (elementName, attrLoop (length parts) entities parts 0 [])
  end.

(** [parseAttributeList]: the attributes of the line go after those the
    element already has. *)
Definition parseAttributeList (p : DTDParser) (line : string) : DTDParser :=
  match attributeList (entities p) line with
  | None => p
  | Some (elementName, attrs) =>
      let attrs' :=
        match attributes p !! elementName with
        | Some existingAttrs => existingAttrs ++ attrs
        | None => attrs
        end in
      {| elements := elements p;
         attributes := <[elementName := attrs']> (attributes p);
         elementOrder := elementOrder p;
         entities := entities p |}
  end.

(** [parseLine] *)
Definition parseLine (p : DTDParser) (line : string) : DTDParser :=
  let line := TrimSpace line in
  if HasPrefix line "<!ENTITY" then parseEntity p line
  else if HasPrefix line "<!ELEMENT" then parseElement p line
  else if HasPrefix line "<!ATTLIST" then parseAttributeList p line
  else p.

(** The input of [ParseFile] as [os.Open] and [bufio.Scanner] hand it
    over: the file does not open, or the scanner yields [lines] (what
    [scanner.Text()] returns at each [Scan]) and then stops, with the error
    [scanner.Err()] if reading failed. *)
Inductive File : Type :=
| Unopened (err : string)
| Opened (lines : list string) (scanErr : option string).

(** What [ParseFile] returns: a result or an error. *)
Inductive Outcome (A : Type) : Type :=
| Ok (a : A)
| Failed (err : string).
Arguments Ok {A} a.
Arguments Failed {A} err.

(** One turn of the scanning loop: the parser and [currentLine]. *)
Definition scanStep (st : DTDParser * string) (text : string)
    : DTDParser * string :=
  let '(p, currentLine) := st in
  let line := TrimSpace text in
  if (line =? EmptyString) || HasPrefix line "<!--" then st
  else
    let currentLine := currentLine +:+ line +:+ " " in
    if HasSuffix line ">" &&
       (Contains currentLine "<!ELEMENT" || Contains currentLine "<!ATTLIST"
        || Contains currentLine "<!ENTITY")
    then (parseLine p (TrimSpace currentLine), EmptyString)
    else (p, currentLine).

(** The order in which a [range] over a Go map visits it is not specified:
    a [MapRange] picks one, and is one when it visits each key once. *)
Definition MapRange : Type :=
  gmap string (list DTDAttribute) → list (string * list DTDAttribute).

Definition is_range (range : MapRange) : Prop :=
  ∀ m, range m ≡ₚ map_to_list m.

(** The loop that hands each element its attributes. *)
Definition associate (visited : list (string * list DTDAttribute))
    (elements : gmap string DTDElement) : gmap string DTDElement :=
  foldl (λ els '(elementName, attrs),
           match els !! elementName with
           | Some element =>
               <[elementName := mkElement (elem_Name element)
                                  (elem_Content element) attrs]> els
           | None => els
           end)
        elements visited.

(** The parser after the scanning loop. *)
Definition scanLines (p : DTDParser) (lines : list string) : DTDParser :=
  fst (foldl scanStep (p, EmptyString) lines).

(** [ParseFile], a method of the parser [p]. *)
Definition ParseFile (range : MapRange) (p : DTDParser) (file : File)
    : Outcome ParseResult :=
  match file with
  | Unopened err => Failed ("failed to open file: " +:+ err)
  | Opened lines (Some err) => Failed ("error reading file: " +:+ err)
  | Opened lines None =>
      let p := scanLines p lines in
      Ok {| Elements := associate (range (attributes p)) (elements p);
            Order := elementOrder p |}
  end.

(** ** struct_generator.go *)

(** [StructGenerator] *)
Record StructGenerator : Type := mkGenerator {
  packageName : string;
  gen_elements : gmap string DTDElement;
  gen_elementOrder : list string
}.

(** [NewStructGenerator] *)
Definition NewStructGenerator (packageName : string)
    (elements : gmap string DTDElement) (elementOrder : list string)
    : StructGenerator :=
  mkGenerator packageName elements elementOrder.

(** [isSimpleElement]: whether an element is a plain string field. *)
Definition isSimpleElement (g : StructGenerator) (elementName : string)
    : bool :=
  match gen_elements g !! elementName with
  | None => true
  | Some element =>
      let content := TrimSpace (elem_Content element) in
      if (content =? "( #PCDATA )") || (content =? "#PCDATA")
         || (content =? "EMPTY")
      then true
      else if (length (elem_Attributes element) =? 0)%nat &&
              ((content =? "( #PCDATA )") || Contains content "#PCDATA")
      then true
      else false
  end.

(** [canContainText] *)
Definition canContainText (content : string) : bool :=
  Contains content "#PCDATA".

Section Generator.
Context {U : UnicodeTables}.

Definition isDashOrUnderscore (c : ascii) : bool :=
  (code c =? 45)%N || (code c =? 95)%N.

(** [toGoStructName]: what the loop writes for each word, one after the
    other. *)
Definition toGoStructName (name : string) : string :=
  let words := FieldsFunc name isDashOrUnderscore in
  let structName :=
    writeAll ((λ word, if (0 <? String.length word)%nat then Title word
                       else EmptyString) <$> words) in
  if structName =? EmptyString then "Element" else structName.

(** [runes := []rune(word); runes[0] = unicode.ToUpper(runes[0]);
    string(runes)], for a word that is not empty and so has a first
    rune. *)
Definition upperFirst (word : string) : string :=
  match runes word with
  | r :: rest => stringOfRunes (ToUpperRune r :: rest)
  | [] => EmptyString
  end.

(** [toGoFieldName] *)
Definition toGoFieldName (name : string) : string :=
  let words := FieldsFunc name isDashOrUnderscore in
  let fieldName :=
    writeAll ((λ word, if (0 <? String.length word)%nat then upperFirst word
                       else EmptyString) <$> words) in
  if fieldName =? EmptyString then "Field" else fieldName.

(** [getGoType] *)
Definition getGoType (dtdType : string) : string :=
  let t := ToUpper dtdType in
  if (t =? "CDATA") || (t =? "ID") || (t =? "IDREF") || (t =? "NMTOKEN")
  then "string"
  else if (t =? "IDREFS") || (t =? "NMTOKENS") then "[]string"
  else "string".

(** [getXMLTag] *)
Definition getXMLTag (name : string) (required isAttribute : bool) : string :=
  let tag := if isAttribute then name +:+ ",attr" else name in
  if negb required then tag +:+ ",omitempty" else tag.

(** A field with its tag: [fmt.Sprintf] with the format
    [%s %s `xml:"%s"`]. *)
Definition fieldLine (fieldName fieldType xmlTag : string) : string :=
  fieldName +:+ " " +:+ fieldType +:+ " `xml:" +:+ dquote +:+ xmlTag
            +:+ dquote +:+ "`".

Definition isSeparatorOfNames (c : ascii) : bool :=
  (code c =? 44)%N || (code c =? 124)%N.          (* [,|] *)
Definition isOccurrence (c : ascii) : bool :=
  (code c =? 43)%N || (code c =? 42)%N || (code c =? 63)%N.   (* [+*?] *)
Definition isOccurrenceOrPunct (c : ascii) : bool :=
  isOccurrence c || (code c =? 40)%N || (code c =? 41)%N
  || (code c =? 44)%N.                              (* [+*?(),] *)

(** The body of the loop over [parts]: the element names of one part. *)
Definition namesOfPart (part : string) : list string :=
  let part := TrimSpace part in
  let part := RemoveAll isOccurrence part in
  let part := Trim part "()" in
  let part := TrimSpace part in
  if negb (part =? EmptyString) && negb (Contains part "#PCDATA")
     && negb (Contains part "%")
  then
    flat_map (λ subPart,
                let subPart := RemoveAll isOccurrenceOrPunct subPart in
                let subPart := TrimSpace subPart in
                if negb (subPart =? EmptyString)
                   && negb (Contains subPart "#PCDATA")
                then [subPart] else [])
             (Fields part)
  else [].

(** Whether the content model ends in a repetition of its group. *)
Definition groupRepeatingOf (original : string) : bool :=
  HasSuffix original ")*" || HasSuffix original ")+".

(** [elementNames] of [parseContentModel], for a content model that is
    none of the special ones. *)
Definition elementNamesOf (content : string) : list string :=
  let groupRepeating := groupRepeatingOf (TrimSpace content) in
  let content :=
    if groupRepeating && (HasSuffix content ")*" || HasSuffix content ")+")
    then dropLast 2 content else content in
  let content := Trim content "()" in
  let content := TrimSpace content in
  flat_map namesOfPart (Split isSeparatorOfNames content).

(** [isSlice] of [parseContentModel]. *)
Definition isSliceOf (original name : string) : bool :=
  groupRepeatingOf original || Contains original (name +:+ "*")
  || Contains original (name +:+ "+") || Contains original "|".

(** The field of the child [name]. *)
Definition childField (g : StructGenerator) (original name : string) : string :=
  let fieldName := toGoFieldName name in
  let structType := toGoStructName name in
  let isSlice := isSliceOf original name in
  if isSimpleElement g name then
    if isSlice
    then fieldLine fieldName "[]string" (name +:+ ",omitempty")
    else fieldLine fieldName "*string" (name +:+ ",omitempty")
  else
    if isSlice
    then fieldLine fieldName ("[]" +:+ structType) (name +:+ ",omitempty")
    else fieldLine fieldName ("*" +:+ structType) (name +:+ ",omitempty").

(** One turn of the loop that removes duplicates: [uniqueNames] and
    [fields]. *)
Definition uniqueStep (g : StructGenerator) (original : string)
    (st : gmap string bool * list string) (name : string)
    : gmap string bool * list string :=
  let '(uniqueNames, fields) := st in
  if negb (default false (uniqueNames !! name))
  then (<[name := true]> uniqueNames, fields ++ [childField g original name])
  else st.

(** [parseContentModel]: the fields of a content model. *)
Definition parseContentModel (g : StructGenerator) (content : string)
    : list string :=
  let original := TrimSpace content in
  if content =? "EMPTY" then []
  else if content =? "ANY"
  then ["Content string `xml:" +:+ dquote +:+ ",innerxml" +:+ dquote +:+ "`"]
  else if Contains content "#PCDATA" then []
  else if Contains content "%" then []
  else snd (foldl (uniqueStep g original) (∅, []) (elementNamesOf content)).

(** The line of an attribute in [generateStruct]. *)
Definition attributeLine (attr : DTDAttribute) : string :=
  tab +:+ fieldLine (toGoFieldName (attr_Name attr))
                    (getGoType (attr_Type attr))
                    (getXMLTag (attr_Name attr) (attr_Required attr) true)
      +:+ newline.

Definition textLine : string :=
  tab +:+ "Text string `xml:" +:+ dquote +:+ ",chardata" +:+ dquote +:+ "`"
      +:+ newline.

(** The lines up to the first field. *)
Definition structHead (element : DTDElement) : string :=
  let structName := toGoStructName (elem_Name element) in
  "// " +:+ structName +:+ " represents the <" +:+ elem_Name element
        +:+ "> element" +:+ newline
  +:+ "type " +:+ structName +:+ " struct {" +:+ newline
  +:+ tab +:+ "XMLName xml.Name `xml:" +:+ dquote +:+ elem_Name element
        +:+ dquote +:+ "`" +:+ newline.

(** [generateStruct]: the builder after each write. *)
Definition generateStruct (g : StructGenerator) (element : DTDElement)
    : string :=
  let builder := structHead element in
  let builder :=
    foldl (λ b attr, b +:+ attributeLine attr) builder
          (elem_Attributes element) in
  let contentFields := parseContentModel g (elem_Content element) in
  let builder :=
    foldl (λ b field, b +:+ tab +:+ field +:+ newline) builder contentFields in
  let builder :=
    if canContainText (elem_Content element) then builder +:+ textLine
    else builder in
  builder +:+ "}".

(** One turn of the loop of [GenerateStructs]. *)
Definition generateStep (g : StructGenerator) (builder elementName : string)
    : string :=
  match gen_elements g !! elementName with
  | Some element =>
      if negb (isSimpleElement g elementName)
      then (builder +:+ generateStruct g element) +:+ newline
      else builder
  | None => builder
  end.

Definition fileHead (g : StructGenerator) : string :=
  ("package " +:+ packageName g +:+ newline +:+ newline)
  +:+ ("import " +:+ dquote +:+ "encoding/xml" +:+ dquote +:+ newline
       +:+ newline).

(** [GenerateStructs] *)
Definition GenerateStructs (g : StructGenerator) : string :=
  foldl (generateStep g) (fileHead g) (gen_elementOrder g).

End Generator.

(** ** main.go: parse, then generate *)

Inductive Run : Type :=
| ParseError (err : string)
| NoElements
| Generated (structCode : string).

Definition pipeline {U : UnicodeTables} (range : MapRange)
    (packageName : string) (file : File)
    : Run :=
  match ParseFile range NewDTDParser file with
  | Failed err => ParseError err
  | Ok result =>
      if (size (Elements result) =? 0)%nat then NoElements
      else Generated (GenerateStructs
             (NewStructGenerator packageName (Elements result) (Order result)))
  end.

(** * Notions used in the statements *)

(** The names of a list without the repetitions, each at its first place. *)
Fixpoint firstOccurrences (l : list string) : list string :=
  match l with
  | [] => []
  | x :: l' => x :: filter (λ y, y ≠ x) (firstOccurrences l')
  end.

(** The names the loop has not yet in [uniqueNames]. *)
Fixpoint freshNames (seen : gmap string bool) (l : list string) : list string :=
  match l with
  | [] => []
  | x :: l' =>
      if default false (seen !! x) then freshNames seen l'
      else x :: freshNames (<[x := true]> seen) l'
  end.

(** The three reasons for a child to repeat: the group repeats, the name is
    followed by [*] or [+] somewhere in the expression, or the expression
    has a choice. *)
Definition repeats (original name : string) : Prop :=
  (HasSuffix original ")*" = true ∨ HasSuffix original ")+" = true)
  ∨ (Contains original (name +:+ "*") = true
     ∨ Contains original (name +:+ "+") = true)
  ∨ Contains original "|" = true.

(** A collection field [Name []T `xml:"name,omitempty"`]. *)
Definition collectionField {U : UnicodeTables} (name field : string) : Prop :=
  ∃ elemType,
    field = fieldLine (toGoFieldName name) ("[]" +:+ elemType)
                      (name +:+ ",omitempty").

(** A singular, optional field [Name *T `xml:"name,omitempty"`]. *)
Definition optionalField {U : UnicodeTables} (name field : string) : Prop :=
  ∃ elemType,
    field = fieldLine (toGoFieldName name) ("*" +:+ elemType)
                      (name +:+ ",omitempty").

(** The tables of Latin-1, U+0080 to U+00FF, and nothing above: the
    upper case of the letters U+00E0 to U+00FE (but the division sign) is
    32 below, that of U+00FF is U+0178 and that of the micro sign U+039C;
    no digit is among them.  Examples are run with these tables. *)
Definition latin1 : UnicodeTables :=
  let upper (r : rune) : rune :=
    (if (0xE0 <=? r) && (r <=? 0xFE) && negb (r =? 0xF7) then r - 0x20
     else if r =? 0xFF then 0x178
     else if r =? 0xB5 then 0x39C
     else r)%Z in
  {| toUpperCase := upper;
     toTitleCase := upper;
     isLetter r :=
       ((r =? 0xAA) || (r =? 0xB5) || (r =? 0xBA)
        || ((0xC0 <=? r) && (r <=? 0xFF) && negb (r =? 0xD7)
            && negb (r =? 0xF7)))%Z;
     isDigit _ := false |}.



(** The complete declarations that the scanning loop of [ParseFile] hands
    to [parseLine], from [currentLine] and the lines still to read. *)
Fixpoint completeLines (currentLine : string) (lines : list string)
    : list string :=
  match lines with
  | [] => []
  | text :: lines' =>
      let line := TrimSpace text in
      if (line =? EmptyString) || HasPrefix line "<!--"
      then completeLines currentLine lines'
      else
        let currentLine := currentLine +:+ line +:+ " " in
        if HasSuffix line ">" &&
           (Contains currentLine "<!ELEMENT"
            || Contains currentLine "<!ATTLIST"
            || Contains currentLine "<!ENTITY")
        then TrimSpace currentLine :: completeLines EmptyString lines'
        else completeLines currentLine lines'
  end.

(** A line that can end a declaration: it is neither skipped nor without
    a [>] at its end. *)
Definition endsDeclaration (text : string) : bool :=
  let line := TrimSpace text in
  negb ((line =? EmptyString) || HasPrefix line "<!--") && HasSuffix line ">".

(** The parsers the scanning loop goes through: the order has no name
    twice, it has the names of the elements, and an element is stored under
    its name, without attributes until the end of [ParseFile]. *)
Record wellFormed (p : DTDParser) : Prop := {
  order_NoDup : NoDup (elementOrder p);
  order_elements : ∀ name,
    name ∈ elementOrder p ↔ is_Some (elements p !! name);
  elements_fresh : ∀ name element,
    elements p !! name = Some element →
    elem_Name element = name ∧ elem_Attributes element = []
}.

(** The element a complete declaration declares: its name and content. *)
Definition declaredElement (decl : string) : option (string * string) :=
  let line := TrimSpace decl in
  if HasPrefix line "<!ENTITY" then None
  else if HasPrefix line "<!ELEMENT" then
    match FindStringSubmatch reElement line with
    | Some [name; content] => Some (name, TrimSpace content)
    | _ => None
    end
  else None.

(** The attributes a complete declaration declares, and for which element,
    with the entities known when it is read. *)
Definition declaredAttributes (entities : gmap string string) (decl : string)
    : option (string * list DTDAttribute) :=
  let line := TrimSpace decl in
  if HasPrefix line "<!ENTITY" then None
  else if HasPrefix line "<!ELEMENT" then None
  else if HasPrefix line "<!ATTLIST" then attributeList entities line
  else None.

(** The entities known after a complete declaration. *)
Definition entitiesAfter (entities : gmap string string) (decl : string)
    : gmap string string :=
  let line := TrimSpace decl in
  if HasPrefix line "<!ENTITY" then
    match FindStringSubmatch reEntity line with
    | Some [entityName; entityValue] => <[entityName := entityValue]> entities
    | _ => entities
    end
  else entities.

(** The attributes that the declarations [decls] declare for [name], in
    the order of the declarations. *)
Fixpoint attributesFor (name : string) (entities : gmap string string)
    (decls : list string) : list DTDAttribute :=
  match decls with
  | [] => []
  | decl :: decls' =>
      match declaredAttributes entities decl with
      | Some (elementName, attrs) =>
          if decide (elementName = name) then attrs else []
      | None => []
      end ++ attributesFor name (entitiesAfter entities decl) decls'
  end.

(** Some declaration of [decls] declares the element [name]. *)
Definition declares (name : string) (decls : list string) : Prop :=
  ∃ decl content,
    decl ∈ decls ∧ declaredElement decl = Some (name, content).

(** The elements with the attributes recorded for their names. *)
Definition withAttributes (attributes : gmap string (list DTDAttribute))
    (elements : gmap string DTDElement) : gmap string DTDElement :=
  map_imap (λ name element,
              Some match attributes !! name with
                   | Some attrs =>
                       mkElement (elem_Name element) (elem_Content element)
                                 attrs
                   | None => element
                   end)
           elements.

(** A line the scanning loop passes over: blank, or the start of a
    comment. *)
Definition skipped (text : string) : bool :=
  let line := TrimSpace text in
  (line =? EmptyString) || HasPrefix line "<!--".

(** The names of the elements that the declarations declare, one for each
    declaration of an element, in their order. *)
Definition declaredNames (decls : list string) : list string :=
  omap (λ decl, fst <$> declaredElement decl) decls.

(** The content of the last declaration of the element [name]. *)
Fixpoint lastContent (name : string) (decls : list string) : option string :=
  match decls with
  | [] => None
  | decl :: decls' =>
      match lastContent name decls' with
      | Some content => Some content
      | None =>
          match declaredElement decl with
          | Some (elementName, content) =>
              if decide (elementName = name) then Some content else None
          | None => None
          end
      end
  end.

(** The double quote as a character. *)
Definition dquoteChar : ascii := "034"%char.

(** What every attribute of the parser keeps: a required attribute has no
    default value, and a default value neither starts nor ends with a
    double quote. *)
Definition consistentAttribute (attr : DTDAttribute) : Prop :=
  (attr_Required attr = true → attr_DefaultValue attr = EmptyString)
  ∧ head (chars (attr_DefaultValue attr)) ≠ Some dquoteChar
  ∧ head (rev (chars (attr_DefaultValue attr))) ≠ Some dquoteChar.

(** The tokens of an attribute list: what [parseAttributeList] splits the
    line into. *)
Definition attlistTokens (line : string) : list string :=
  Fields (TrimSpace (TrimSuffix (TrimPrefix line "<!ATTLIST") ">")).

(** A token that [parseAttributeList] reads as an entity reference. *)
Definition isReference (token : string) : bool :=
  HasPrefix token "%" && HasSuffix token ";".

(** The definitions that make an attribute list: a name with a type of
    one token and a default, a name with a parenthesised type of several
    tokens and a default, or a reference to an entity. *)
Inductive attrItem : Type :=
| Plain (name type defaultSpec : string)
| Enumerated (name : string) (typeTokens : list string) (defaultSpec : string)
| Reference (token : string).

Definition itemTokens (item : attrItem) : list string :=
  match item with
  | Plain name type defaultSpec => [name; type; defaultSpec]
  | Enumerated name typeTokens defaultSpec =>
      name :: typeTokens ++ [defaultSpec]
  | Reference token => [token]
  end.

(** A definition is well formed when its name is no reference, the type of
    a plain one has no parenthesis, and the type of an enumerated one opens
    a parenthesis in its first token and closes at its last token, where
    the scan of [parseAttributeList] stops. *)
Definition wellFormedItem (item : attrItem) : Prop :=
  match item with
  | Plain name type _ => isReference name = false ∧ Contains type "(" = false
  | Enumerated name typeTokens _ =>
      isReference name = false
      ∧ Contains (at_ typeTokens 0) "(" = true
      ∧ S (scanParens typeTokens 0 0) = length typeTokens
  | Reference token => isReference token = true
  end.

(** The attributes a definition stands for. *)
Definition itemAttributes (entities : gmap string string) (item : attrItem)
    : list DTDAttribute :=
  match item with
  | Plain name type defaultSpec => [withDefault name type defaultSpec]
  | Enumerated name _ defaultSpec => [withDefault name "string" defaultSpec]
  | Reference token =>
      match entities !! TrimSuffix (TrimPrefix token "%") ";" with
      | Some entityValue => parseEntityValue entityValue []
      | None => []
      end
  end.

(** A name as the expression of [parseElement] captures it: one or more
    of the characters [0-9A-Za-z_-]. *)
Definition wordName (name : string) : Prop :=
  name ≠ EmptyString ∧ Forall (λ c, class_w_dash c = true) (chars name).

(** A buffer the scanning loop takes for a declaration. *)
Definition hasKeyword (buffer : string) : bool :=
  Contains buffer "<!ELEMENT" || Contains buffer "<!ATTLIST"
  || Contains buffer "<!ENTITY".


(** A rune of a word: a code point that is neither [-] nor [_]. *)
Definition wordRune (r : rune) : Prop :=
  (0 ≤ r ≤ MaxRune)%Z ∧ r ≠ 0x2D%Z ∧ r ≠ 0x5F%Z.

(** What the case tables of Unicode do with the runes they are consulted
    for: the upper case, or the title case, of a code point above U+007F is
    a code point, and it is neither [-] nor [_] (it is the rune itself or
    another letter). *)
Definition properCase (f : rune → rune) : Prop :=
  ∀ r : rune, (MaxASCII < r ≤ MaxRune)%Z →
    (0 ≤ f r ≤ MaxRune)%Z ∧ f r ≠ 0x2D%Z ∧ f r ≠ 0x5F%Z.

(** A string of ASCII bytes only. *)
Definition asciiOnly (s : string) : Prop :=
  Forall (λ c, (code c < 128)%N) (chars s).

(** [utf8.ValidString]: the bytes are well-formed UTF-8, that is, none of
    them is read as the [RuneError] of a byte that is no rune; [skip]
    counts the bytes of the rune being passed. *)
Fixpoint validAux (l : list ascii) (skip : nat) : bool :=
  match l with
  | [] => true
  | _ :: l' =>
      match skip with
      | S k => validAux l' k
      | O =>
          let '(r, width) := DecodeRune l in
          ((1 <? width)%nat || negb (r =? RuneError)%Z)
          && validAux l' (width - 1)
      end
  end.

Definition ValidString (s : string) : bool := validAux (chars s) 0.
(** * Properties *)

(** ** Strings *)

Lemma append_cons c s t : String c s +:+ t = String c (s +:+ t).
Proof. reflexivity. Qed.

Lemma append_nil_l s : EmptyString +:+ s = s.
Proof. reflexivity. Qed.

Lemma append_nil_r s : s +:+ EmptyString = s.
Proof. induction s as [|c s IH]; [done|]. by rewrite append_cons, IH. Qed.

Lemma append_assoc s1 s2 s3 : (s1 +:+ s2) +:+ s3 = s1 +:+ (s2 +:+ s3).
Proof.
  induction s1 as [|c s1 IH]; [done|]. by rewrite !append_cons, IH.
Qed.

Lemma eqb_true s t : (s =? t) = true ↔ s = t.
Proof. apply String.eqb_eq. Qed.

Lemma eqb_false s t : (s =? t) = false ↔ s ≠ t.
Proof. apply String.eqb_neq. Qed.

(** ** The loop that removes duplicate names *)

Lemma foldl_uniqueStep {U : UnicodeTables} g original l seen fields :
  (foldl (uniqueStep g original) (seen, fields) l).2
  = fields ++ (childField g original <$> freshNames seen l).
Proof.
  revert seen fields.
  induction l as [|x l IH]; intros seen fields; simpl.
  - by rewrite app_nil_r.
  - destruct (default false (seen !! x)) eqn:Hx; simpl.
    + apply IH.
    + rewrite IH, <- app_assoc. reflexivity.
Qed.

Lemma firstOccurrences_filter (Q : string → Prop) `{∀ x, Decision (Q x)} l :
  firstOccurrences (filter Q l) = filter Q (firstOccurrences l).
Proof.
  induction l as [|y l IH]; [done|].
  rewrite filter_cons. destruct (decide (Q y)) as [Hy|Hy]; simpl.
  - rewrite filter_cons_True by done. f_equal.
    rewrite IH, !list_filter_filter.
    apply list_filter_iff. tauto.
  - rewrite filter_cons_False by done.
    rewrite IH, list_filter_filter.
    apply list_filter_iff. intros x.
    destruct (decide (x = y)) as [->|]; tauto.
Qed.

Lemma freshNames_filter seen l :
  freshNames seen l
  = firstOccurrences (filter (λ x, default false (seen !! x) = false) l).
Proof.
  revert seen. induction l as [|x l IH]; intros seen; [done|]; simpl.
  rewrite filter_cons.
  destruct (default false (seen !! x)) eqn:Hx.
  - rewrite decide_False by done. apply IH.
  - rewrite decide_True by done. simpl. f_equal.
    rewrite IH, <- firstOccurrences_filter, list_filter_filter.
    f_equal. apply list_filter_iff. intros y.
    destruct (decide (y = x)) as [->|Hne].
    + rewrite lookup_insert_eq. simpl. intuition congruence.
    + rewrite lookup_insert_ne by done. intuition congruence.
Qed.

Lemma freshNames_empty l : freshNames ∅ l = firstOccurrences l.
Proof.
  rewrite freshNames_filter. f_equal.
  induction l as [|x l IH]; [done|].
  rewrite filter_cons_True by (by rewrite lookup_empty). by rewrite IH.
Qed.

(** [parseContentModel] past its special cases: one field for each name,
    in the order the names first occur. *)
Lemma parseContentModel_children {U : UnicodeTables} g content :
  content ≠ "EMPTY" → content ≠ "ANY" →
  Contains content "#PCDATA" = false → Contains content "%" = false →
  parseContentModel g content
  = childField g (TrimSpace content)
      <$> firstOccurrences (elementNamesOf content).
Proof.
  intros H1%eqb_false H2%eqb_false H3 H4.
  unfold parseContentModel. rewrite H1, H2, H3, H4.
  by rewrite foldl_uniqueStep, freshNames_empty.
Qed.

(** ** Cardinality of the content fields *)

Lemma isSliceOf_repeats original name :
  isSliceOf original name = true ↔ repeats original name.
Proof.
  unfold isSliceOf, groupRepeatingOf, repeats.
  rewrite !orb_true_iff. tauto.
Qed.

Lemma collection_not_optional {U : UnicodeTables} name field :
  collectionField name field → optionalField name field → False.
Proof.
  intros [t1 ->] [t2 H]. unfold fieldLine in H.
  apply (inj (String.app _)) in H.
  rewrite !append_cons in H. discriminate H.
Qed.

Lemma childField_collection {U : UnicodeTables} g original name :
  isSliceOf original name = true →
  collectionField name (childField g original name).
Proof.
  intros H. unfold childField. rewrite H.
  destruct (isSimpleElement g name).
  - by exists "string".
  - by exists (toGoStructName name).
Qed.

Lemma childField_optional {U : UnicodeTables} g original name :
  isSliceOf original name = false →
  optionalField name (childField g original name).
Proof.
  intros H. unfold childField. rewrite H.
  destruct (isSimpleElement g name).
  - by exists "string".
  - by exists (toGoStructName name).
Qed.

Lemma childField_cardinality {U : UnicodeTables} g original name :
  (collectionField name (childField g original name) ↔ repeats original name)
  ∧ (¬ repeats original name
     → optionalField name (childField g original name)).
Proof.
  rewrite <- isSliceOf_repeats.
  destruct (isSliceOf original name) eqn:H.
  - split; [|done]. split; [done|]. intros _. by apply childField_collection.
  - split; [|intros _; by apply childField_optional].
    split; [|done]. intros Hc. exfalso.
    eapply collection_not_optional; [exact Hc|]. by apply childField_optional.
Qed.

(** C1.  For a content model that is none of [EMPTY], [ANY], one with
    [#PCDATA] or one with [%], [parseContentModel] gives one field for each
    child name, in the order of the names' first occurrences, and the field
    of a name is a collection exactly when the group repeats ([)*] or [)+]
    at the end), or the name is followed by [*] or [+] in the expression, or
    the expression has a [|]; it is singular and optional otherwise. *)
Theorem content_field_cardinality {U : UnicodeTables} (g : StructGenerator) (content : string) :
  content ≠ "EMPTY" → content ≠ "ANY" →
  Contains content "#PCDATA" = false → Contains content "%" = false →
  Forall2 (λ name field,
             (collectionField name field ↔ repeats (TrimSpace content) name)
             ∧ (¬ repeats (TrimSpace content) name
                → optionalField name field))
          (firstOccurrences (elementNamesOf content))
          (parseContentModel g content).
Proof.
  intros H1 H2 H3 H4. rewrite parseContentModel_children by done.
  induction (firstOccurrences (elementNamesOf content)) as [|name l IH].
  - constructor.
  - rewrite fmap_cons. constructor; [apply childField_cardinality | apply IH].
Qed.

(** ** Children without a declaration *)

(** C10.  A child name of a content model that no element declaration
    declares is a simple element, and its field has type [[]string] when it
    repeats and [*string] otherwise. *)
Theorem undeclared_child_is_string {U : UnicodeTables} (g : StructGenerator) (content : string)
    (i : nat) (name : string) :
  content ≠ "EMPTY" → content ≠ "ANY" →
  Contains content "#PCDATA" = false → Contains content "%" = false →
  firstOccurrences (elementNamesOf content) !! i = Some name →
  gen_elements g !! name = None →
  isSimpleElement g name = true
  ∧ parseContentModel g content !! i
    = Some (fieldLine (toGoFieldName name)
              (if isSliceOf (TrimSpace content) name
               then "[]string" else "*string")
              (name +:+ ",omitempty")).
Proof.
  intros H1 H2 H3 H4 Hi Hname.
  assert (isSimpleElement g name = true) as Hsimple.
  { unfold isSimpleElement. by rewrite Hname. }
  split; [done|].
  rewrite parseContentModel_children by done.
  rewrite list_lookup_fmap, Hi. simpl. f_equal.
  unfold childField. rewrite Hsimple.
  by destruct (isSliceOf (TrimSpace content) name).
Qed.

(** ** Mixed content *)

Lemma foldl_append {A} (f : A → string) (l : list A) (b : string) :
  foldl (λ b x, b +:+ f x) b l = b +:+ writeAll (f <$> l).
Proof.
  revert b. induction l as [|x l IH]; intros b; simpl.
  - by rewrite append_nil_r.
  - by rewrite IH, append_assoc.
Qed.

Lemma parseContentModel_PCDATA {U : UnicodeTables} g content :
  Contains content "#PCDATA" = true → parseContentModel g content = [].
Proof.
  intros H. unfold parseContentModel.
  destruct (content =? "EMPTY") eqn:H1; [done|].
  destruct (content =? "ANY") eqn:H2.
  - apply eqb_true in H2. subst content. discriminate H.
  - by rewrite H.
Qed.

(** C6.  For an element whose content model contains [#PCDATA], the content
    model gives no child fields, and the definition is the head, the
    attributes' fields, then the text field, which is the line
    [Text string `xml:",chardata"`] between a tab and a line feed, and
    after it the closing brace: the text field is there, it is the last
    field, and no field of a child stands before it. *)
Theorem mixed_content_text_only {U : UnicodeTables} (g : StructGenerator)
    (element : DTDElement) :
  Contains (elem_Content element) "#PCDATA" = true →
  parseContentModel g (elem_Content element) = []
  ∧ generateStruct g element
    = structHead element
      +:+ writeAll (attributeLine <$> elem_Attributes element)
      +:+ (tab +:+ "Text string `xml:" +:+ dquote +:+ ",chardata" +:+ dquote
               +:+ "`" +:+ newline)
      +:+ "}".
Proof.
  intros H. split; [by apply parseContentModel_PCDATA|].
  unfold generateStruct, canContainText.
  rewrite parseContentModel_PCDATA, H by done. simpl.
  rewrite foldl_append. by rewrite !append_assoc.
Qed.



(** ** The model on examples *)

Example TrimSpace_example :
  TrimSpace ("  (c, d) " +:+ tab +:+
             String "194"%char (String "160"%char EmptyString))
  = "(c, d)".
Proof. by vm_compute. Qed.

Example Fields_example :
  Fields (" x  id" +:+ tab +:+ "ID" +:+ newline +:+ "#REQUIRED ")
  = ["x"; "id"; "ID"; "#REQUIRED"].
Proof. by vm_compute. Qed.

Example reElement_example :
  FindStringSubmatch reElement "<!ELEMENT first-name   (#PCDATA) >"
  = Some ["first-name"; "(#PCDATA) "]
  ∧ FindStringSubmatch reElement "<!ELEMENT a  >" = Some ["a"; " "]
  ∧ FindStringSubmatch reElement "<!ELEMENT a >" = None
  ∧ FindStringSubmatch reElement "<!ELEMENT (a) b>" = None.
Proof. repeat split; by vm_compute. Qed.

Example elementNamesOf_example :
  elementNamesOf "(a, b*, (c | d)+, a?)" = ["a"; "b"; "c"; "d"; "a"]
  ∧ elementNamesOf "(a | b)*" = ["a"; "b"].
Proof. split; by vm_compute. Qed.

Example attributeList_example :
  attributeList ∅
    ("<!ATTLIST book id ID #REQUIRED isbn CDATA #IMPLIED "
     +:+ "category (fiction|non-fiction|technical) "
     +:+ dquote +:+ "fiction" +:+ dquote +:+ ">")
  = Some ("book", [mkAttribute "id" "ID" EmptyString true;
                   mkAttribute "isbn" "CDATA" EmptyString false;
                   mkAttribute "category" "string" "fiction" false]).
Proof. by vm_compute. Qed.

(** The document of the README, and the definitions it gives. *)
Example readme_example {U : UnicodeTables} :
  pipeline map_to_list "main"
    (Opened
       ["<!ELEMENT catalog (book+)>";
        "<!ATTLIST catalog version CDATA #REQUIRED>";
        EmptyString;
        "<!ELEMENT book (title, author, publisher, price?)>";
        "<!ATTLIST book id ID #REQUIRED";
        "               isbn CDATA #IMPLIED";
        "               category (fiction|non-fiction|technical) "
          +:+ dquote +:+ "fiction" +:+ dquote +:+ ">";
        EmptyString;
        "<!ELEMENT title (#PCDATA)>";
        "<!ELEMENT author (first-name, last-name)>";
        "<!ELEMENT first-name (#PCDATA)>";
        "<!ELEMENT last-name (#PCDATA)>";
        "<!ELEMENT publisher (#PCDATA)>";
        "<!ELEMENT price (#PCDATA)>";
        "<!ATTLIST price currency CDATA "
          +:+ dquote +:+ "USD" +:+ dquote +:+ ">"] None)
  = Generated (writeAll
      [ "package main"; newline; newline;
        "import "; dquote; "encoding/xml"; dquote; newline; newline;
        "// Catalog represents the <catalog> element"; newline;
        "type Catalog struct {"; newline;
        tab; "XMLName xml.Name `xml:"; dquote; "catalog"; dquote; "`"; newline;
        tab; fieldLine "Version" "string" "version,attr"; newline;
        tab; fieldLine "Book" "[]Book" "book,omitempty"; newline;
        "}"; newline;
        "// Book represents the <book> element"; newline;
        "type Book struct {"; newline;
        tab; "XMLName xml.Name `xml:"; dquote; "book"; dquote; "`"; newline;
        tab; fieldLine "Id" "string" "id,attr"; newline;
        tab; fieldLine "Isbn" "string" "isbn,attr,omitempty"; newline;
        tab; fieldLine "Category" "string" "category,attr,omitempty"; newline;
        tab; fieldLine "Title" "*string" "title,omitempty"; newline;
        tab; fieldLine "Author" "*Author" "author,omitempty"; newline;
        tab; fieldLine "Publisher" "*string" "publisher,omitempty"; newline;
        tab; fieldLine "Price" "*Price" "price,omitempty"; newline;
        "}"; newline;
        "// Author represents the <author> element"; newline;
        "type Author struct {"; newline;
        tab; "XMLName xml.Name `xml:"; dquote; "author"; dquote; "`"; newline;
        tab; fieldLine "FirstName" "*string" "first-name,omitempty"; newline;
        tab; fieldLine "LastName" "*string" "last-name,omitempty"; newline;
        "}"; newline;
        "// Price represents the <price> element"; newline;
        "type Price struct {"; newline;
        tab; "XMLName xml.Name `xml:"; dquote; "price"; dquote; "`"; newline;
        tab; fieldLine "Currency" "string" "currency,attr,omitempty"; newline;
        textLine;
        "}"; newline ]).
Proof. by vm_compute. Qed.

(** ** The loop over the parts of an attribute list ends *)

Lemma scanParens_ge rest j parenCount : j ≤ scanParens rest j parenCount.
Proof.
  revert j parenCount. induction rest as [|part rest IH]; intros j n; simpl.
  - lia.
  - destruct ((countParens part n =? 0)%Z && Contains part ")"); [lia|].
    specialize (IH (S j) (countParens part n)). lia.
Qed.

Lemma attrStep_progress entities parts i attrs :
  i < (attrStep entities parts i attrs).2.
Proof.
  unfold attrStep.
  destruct (HasPrefix (at_ parts i) "%" && HasSuffix (at_ parts i) ";").
  - destruct (entities !! _); simpl; lia.
  - destruct (i + 2 <? length parts)%nat; [|simpl; lia].
    destruct (Contains (at_ parts (i + 1)) "("); [|simpl; lia].
    pose proof (scanParens_ge (drop (i + 1) parts) (i + 1) 0).
    destruct (_ <? _)%nat; simpl; lia.
Qed.

(** With [len(parts) - i] turns or more the loop reaches its end: more
    turns do not change what it returns. *)
Lemma attrLoop_enough fuel fuel' entities parts i attrs :
  length parts - i ≤ fuel → length parts - i ≤ fuel' →
  attrLoop fuel entities parts i attrs = attrLoop fuel' entities parts i attrs.
Proof.
  revert fuel' i attrs.
  induction fuel as [|fuel IH]; intros [|fuel'] i attrs H1 H2; simpl; try done.
  - destruct (Nat.ltb_spec i (length parts)); [lia|done].
  - destruct (Nat.ltb_spec i (length parts)); [lia|done].
  - destruct (Nat.ltb_spec i (length parts)); [|done].
    pose proof (attrStep_progress entities parts i attrs).
    destruct (attrStep entities parts i attrs) as [attrs' i'].
    simpl in *. apply IH; lia.
Qed.

Lemma content_field_cardinality_witness :
  let U := latin1 in
  let content := "(circle | square)" in
  let g := NewStructGenerator "main"
             {[ "shape" := mkElement "shape" content [] ]} ["shape"] in
  (content ≠ "EMPTY" ∧ content ≠ "ANY"
   ∧ Contains content "#PCDATA" = false ∧ Contains content "%" = false)
  ∧ Forall2 (λ name field,
               (collectionField name field ↔ repeats (TrimSpace content) name)
               ∧ (¬ repeats (TrimSpace content) name
                  → optionalField name field))
            (firstOccurrences (elementNamesOf content))
            (parseContentModel g content)
  ∧ firstOccurrences (elementNamesOf content) = ["circle"; "square"]
  ∧ parseContentModel g content
    = [fieldLine "Circle" "[]string" "circle,omitempty";
       fieldLine "Square" "[]string" "square,omitempty"].
Proof.
  intros U.
  intros content g.
  assert (content ≠ "EMPTY") as H1 by done.
  assert (content ≠ "ANY") as H2 by done.
  assert (Contains content "#PCDATA" = false) as H3 by (by vm_compute).
  assert (Contains content "%" = false) as H4 by (by vm_compute).
  split; [done|].
  split; [exact (content_field_cardinality g content H1 H2 H3 H4)|].
  split; by vm_compute.
Defined.

Lemma undeclared_child_is_string_witness :
  let U := latin1 in
  let content := "(title, author*)" in
  let g := NewStructGenerator "main"
             {[ "book" := mkElement "book" content [] ]} ["book"] in
  (content ≠ "EMPTY" ∧ content ≠ "ANY"
   ∧ Contains content "#PCDATA" = false ∧ Contains content "%" = false
   ∧ firstOccurrences (elementNamesOf content) !! 1 = Some "author"
   ∧ gen_elements g !! "author" = None)
  ∧ isSimpleElement g "author" = true
  ∧ parseContentModel g content !! 1
    = Some (fieldLine (toGoFieldName "author")
              (if isSliceOf (TrimSpace content) "author"
               then "[]string" else "*string")
              ("author" +:+ ",omitempty")).
Proof.
  intros U.
  intros content g.
  assert (content ≠ "EMPTY") as H1 by done.
  assert (content ≠ "ANY") as H2 by done.
  assert (Contains content "#PCDATA" = false) as H3 by (by vm_compute).
  assert (Contains content "%" = false) as H4 by (by vm_compute).
  assert (firstOccurrences (elementNamesOf content) !! 1 = Some "author")
    as H5 by (by vm_compute).
  assert (gen_elements g !! "author" = None) as H6 by (by vm_compute).
  split; [done|].
  exact (undeclared_child_is_string g content 1 "author" H1 H2 H3 H4 H5 H6).
Defined.

Lemma mixed_content_text_only_witness :
  let U := latin1 in
  let p := mkElement "p" "(#PCDATA | em)*"
             [mkAttribute "id" "ID" EmptyString false] in
  let g := NewStructGenerator "main" {[ "p" := p ]} ["p"] in
  Contains (elem_Content p) "#PCDATA" = true
  ∧ (parseContentModel g (elem_Content p) = []
     ∧ generateStruct g p
       = structHead p +:+ writeAll (attributeLine <$> elem_Attributes p)
         +:+ (tab +:+ "Text string `xml:" +:+ dquote +:+ ",chardata"
                  +:+ dquote +:+ "`" +:+ newline)
         +:+ "}")
  ∧ generateStruct g p
    = writeAll
        [ "// P represents the <p> element"; newline;
          "type P struct {"; newline;
          tab; "XMLName xml.Name `xml:"; dquote; "p"; dquote; "`"; newline;
          tab; "Id string `xml:"; dquote; "id,attr,omitempty"; dquote; "`";
          newline;
          tab; "Text string `xml:"; dquote; ",chardata"; dquote; "`";
          newline;
          "}" ].
Proof.
  intros U p g.
  assert (Contains (elem_Content p) "#PCDATA" = true) as H by (by vm_compute).
  split; [exact H|]. split; [exact (mixed_content_text_only g p H)|].
  by vm_compute.
Defined.

(** The choice [<!ELEMENT shape (circle | square)>] through the whole
    pipeline: both members are collections. *)
Example shape_choice {U : UnicodeTables} :
  pipeline map_to_list "main"
    (Opened ["<!ELEMENT shape (circle | square)>"] None)
  = Generated (writeAll
      [ "package main"; newline; newline;
        "import "; dquote; "encoding/xml"; dquote; newline; newline;
        "// Shape represents the <shape> element"; newline;
        "type Shape struct {"; newline;
        tab; "XMLName xml.Name `xml:"; dquote; "shape"; dquote; "`"; newline;
        tab; fieldLine "Circle" "[]string" "circle,omitempty"; newline;
        tab; fieldLine "Square" "[]string" "square,omitempty"; newline;
        "}"; newline ]).
Proof. by vm_compute. Qed.

(** A name counts as followed by [*] wherever the expression has the name
    and the [*] next to each other: in [(ab*, b)] the child [b] is a
    collection too, for the [b*] at the end of [ab*]. *)
Example name_followed_by_star_inside_another {U : UnicodeTables} :
  parseContentModel (NewStructGenerator "main" ∅ []) "(ab*, b)"
  = [fieldLine "Ab" "[]string" "ab,omitempty";
     fieldLine "B" "[]string" "b,omitempty"]
  ∧ parseContentModel (NewStructGenerator "main" ∅ []) "(ab, b)"
    = [fieldLine "Ab" "*string" "ab,omitempty";
       fieldLine "B" "*string" "b,omitempty"].
Proof. split; by vm_compute. Qed.

(** ** Simple and structured elements *)







(** ** The scanning loop *)

Lemma scan_completeLines lines p currentLine :
  (foldl scanStep (p, currentLine) lines).1
  = foldl parseLine p (completeLines currentLine lines).
Proof.
  revert p currentLine.
  induction lines as [|text lines IH]; intros p currentLine; [done|].
  simpl.
  destruct ((TrimSpace text =? EmptyString)
            || HasPrefix (TrimSpace text) "<!--").
  - apply IH.
  - match goal with |- context [if ?b then _ else _] => destruct b end.
    + apply IH.
    + apply IH.
Qed.

Lemma scanLines_completeLines p lines :
  scanLines p lines = foldl parseLine p (completeLines EmptyString lines).
Proof. apply scan_completeLines. Qed.

Lemma scanStep_unterminated st text :
  endsDeclaration text = false → (scanStep st text).1 = st.1.
Proof.
  destruct st as [p currentLine]. unfold endsDeclaration, scanStep.
  destruct ((TrimSpace text =? EmptyString)
            || HasPrefix (TrimSpace text) "<!--");
    [done|].
  simpl. by intros ->.
Qed.

Lemma foldl_scanStep_unterminated tail st :
  Forall (λ text, endsDeclaration text = false) tail →
  (foldl scanStep st tail).1 = st.1.
Proof.
  revert st. induction tail as [|text tail IH]; intros st Htail; [done|].
  apply Forall_cons in Htail as [Htext Htail]. simpl.
  rewrite IH by done. by apply scanStep_unterminated.
Qed.

(** C7.  Lines at the end of the input none of which ends a declaration
    (each is blank, a comment, or does not end in [>]) leave the result of
    [ParseFile] as it is without them, and [ParseFile] returns a result, not
    an error, when the file opens and the scanner reads it to its end. *)
Theorem unterminated_declaration_dropped (range : MapRange) (p : DTDParser)
    (lines tail : list string) :
  Forall (λ text, endsDeclaration text = false) tail →
  ParseFile range p (Opened (lines ++ tail) None)
  = ParseFile range p (Opened lines None)
  ∧ ∃ result,
      ParseFile range p (Opened (lines ++ tail) None) = Ok result.
Proof.
  intros Htail.
  assert (scanLines p (lines ++ tail) = scanLines p lines) as Hscan.
  { unfold scanLines. rewrite foldl_app.
    by apply foldl_scanStep_unterminated. }
  unfold ParseFile. rewrite Hscan. split; [done|]. by eexists.
Qed.

Lemma unterminated_declaration_dropped_witness :
  Forall (λ text, endsDeclaration text = false) ["<!ELEMENT b (c,"; "  d"]
  ∧ ParseFile map_to_list NewDTDParser
      (Opened (["<!ELEMENT a (b)>"] ++ ["<!ELEMENT b (c,"; "  d"]) None)
    = ParseFile map_to_list NewDTDParser (Opened ["<!ELEMENT a (b)>"] None)
  ∧ ∃ result,
      ParseFile map_to_list NewDTDParser
        (Opened (["<!ELEMENT a (b)>"] ++ ["<!ELEMENT b (c,"; "  d"]) None)
      = Ok result.
Proof.
  assert (Forall (λ text, endsDeclaration text = false)
                 ["<!ELEMENT b (c,"; "  d"]) as H.
  { repeat constructor. }
  split; [exact H|].
  exact (unterminated_declaration_dropped map_to_list NewDTDParser
           ["<!ELEMENT a (b)>"]
           ["<!ELEMENT b (c,"; "  d"] H).
Defined.

(** ** The parser's invariant *)

(** The cases of [parseLine] on the declaration [decl]: an entity, an
    element or an attribute list, each with what its expression finds. *)
Ltac parseLine_cases decl :=
  unfold parseLine, parseEntity, parseElement, parseAttributeList;
  destruct (HasPrefix (TrimSpace decl) "<!ENTITY");
  [ destruct (FindStringSubmatch reEntity (TrimSpace decl))
      as [[|? [|? [|? ?]]]|]
  | destruct (HasPrefix (TrimSpace decl) "<!ELEMENT");
    [ destruct (FindStringSubmatch reElement (TrimSpace decl))
        as [[|? [|? [|? ?]]]|]
    | destruct (HasPrefix (TrimSpace decl) "<!ATTLIST") ] ].

Lemma wellFormed_new : wellFormed NewDTDParser.
Proof.
  split; simpl.
  - constructor.
  - intros name. rewrite lookup_empty, elem_of_nil. split; [done|].
    by intros [? ?].
  - intros name element. by rewrite lookup_empty.
Qed.

Lemma wellFormed_parseEntity p line :
  wellFormed p → wellFormed (parseEntity p line).
Proof.
  intros [H1 H2 H3]. unfold parseEntity.
  destruct (FindStringSubmatch reEntity line) as [[|? [|? [|? ?]]]|];
    by split.
Qed.

Lemma wellFormed_parseAttributeList p line :
  wellFormed p → wellFormed (parseAttributeList p line).
Proof.
  intros [H1 H2 H3]. unfold parseAttributeList.
  destruct (attributeList (entities p) line) as [[? ?]|]; by split.
Qed.

Lemma wellFormed_parseElement p line :
  wellFormed p → wellFormed (parseElement p line).
Proof.
  intros [H1 H2 H3]. unfold parseElement.
  destruct (FindStringSubmatch reElement line)
    as [[|name [|content [|? ?]]]|]; try by split.
  split; simpl.
  - destruct (elements p !! name) eqn:Hname; [done|].
    apply NoDup_app. split_and!; [done| |apply NoDup_singleton].
    intros x Hx ->%list_elem_of_singleton.
    apply H2 in Hx as [? Hx]. congruence.
  - intros x. destruct (decide (x = name)) as [->|Hne].
    + rewrite lookup_insert_eq. split; [by eexists|]. intros _.
      destruct (elements p !! name) eqn:Hname.
      * apply H2. by rewrite Hname.
      * apply elem_of_app. right. by apply list_elem_of_singleton.
    + rewrite lookup_insert_ne by done. rewrite <- H2.
      destruct (elements p !! name); [done|].
      rewrite elem_of_app, list_elem_of_singleton. tauto.
  - intros x element. destruct (decide (x = name)) as [->|Hne].
    + rewrite lookup_insert_eq. by intros [= <-].
    + rewrite lookup_insert_ne by done. apply H3.
Qed.

Lemma wellFormed_parseLine p line :
  wellFormed p → wellFormed (parseLine p line).
Proof.
  intros Hp. unfold parseLine.
  repeat match goal with |- context [if ?b then _ else _] => destruct b end;
    auto using wellFormed_parseEntity, wellFormed_parseElement,
      wellFormed_parseAttributeList.
Qed.

Lemma wellFormed_foldl decls p :
  wellFormed p → wellFormed (foldl parseLine p decls).
Proof.
  revert p. induction decls as [|decl decls IH]; intros p Hp; [done|].
  simpl. apply IH. by apply wellFormed_parseLine.
Qed.

Lemma wellFormed_scanLines lines : wellFormed (scanLines NewDTDParser lines).
Proof.
  rewrite scanLines_completeLines. apply wellFormed_foldl, wellFormed_new.
Qed.

(** ** Element declarations *)

Lemma parseLine_element p line name content :
  declaredElement line = Some (name, content) →
  parseLine p line
  = {| elements := <[name := mkElement name content []]> (elements p);
       attributes := attributes p;
       elementOrder := match elements p !! name with
                       | Some _ => elementOrder p
                       | None => elementOrder p ++ [name]
                       end;
       entities := entities p |}.
Proof.
  unfold declaredElement, parseLine, parseElement.
  destruct (HasPrefix (TrimSpace line) "<!ENTITY"); [done|].
  destruct (HasPrefix (TrimSpace line) "<!ELEMENT"); [|done].
  destruct (FindStringSubmatch reElement (TrimSpace line))
    as [[|name' [|content' [|? ?]]]|]; try done.
  by intros [= -> <-].
Qed.

Lemma filter_eq_NoDup (l : list string) (x : string) :
  NoDup l → x ∈ l → length (filter (λ y, y = x) l) = 1.
Proof.
  induction 1 as [|y l Hy Hl IH]; [by intros ?%elem_of_nil|].
  intros [Heq|Hx]%elem_of_cons.
  - subst y. rewrite filter_cons_True by done. simpl. f_equal.
    assert (filter (λ y, y = x) l = []) as ->; [|done].
    clear IH Hl. induction l as [|z l IH]; [done|].
    apply not_elem_of_cons in Hy as [Hz Hy].
    rewrite filter_cons_False by (by intros ->). by apply IH.
  - rewrite filter_cons_False; [by apply IH|]. by intros ->.
Qed.

(** C4.  After any declarations, a declaration of the element [name] with
    [content] leaves the parser with the one entry [name] of that content,
    and with [name] once in the order: the order is unchanged when [name]
    was declared before, and has [name] added at its end when not. *)
Theorem element_declared_once (decls : list string)
    (line name content : string) :
  declaredElement line = Some (name, content) →
  let p := foldl parseLine NewDTDParser decls in
  let p' := parseLine p line in
  elements p' !! name = Some (mkElement name content [])
  ∧ length (filter (λ n, n = name) (elementOrder p')) = 1
  ∧ (is_Some (elements p !! name) → elementOrder p' = elementOrder p)
  ∧ (elements p !! name = None → elementOrder p' = elementOrder p ++ [name])
  ∧ (∀ other, other ≠ name → elements p' !! other = elements p !! other).
Proof.
  intros Hline p p'.
  assert (wellFormed p') as Hwf.
  { apply wellFormed_parseLine, wellFormed_foldl, wellFormed_new. }
  assert (elements p' !! name = Some (mkElement name content [])) as Hname.
  { unfold p'. rewrite (parseLine_element _ _ _ _ Hline). simpl.
    apply lookup_insert_eq. }
  split; [done|]. split.
  - apply filter_eq_NoDup; [apply Hwf|]. apply (order_elements _ Hwf).
    by rewrite Hname.
  - unfold p'. rewrite (parseLine_element _ _ _ _ Hline). simpl.
    split_and!.
    + by intros [? ->].
    + by intros ->.
    + intros other Hother. by rewrite lookup_insert_ne.
Qed.

Lemma element_declared_once_witness :
  let decls := ["<!ELEMENT a (b)>"; "<!ELEMENT b EMPTY>"] in
  let line := "<!ELEMENT a (c, d)>" in
  declaredElement line = Some ("a", "(c, d)")
  ∧ let p := foldl parseLine NewDTDParser decls in
    let p' := parseLine p line in
    elements p' !! "a" = Some (mkElement "a" "(c, d)" [])
    ∧ length (filter (λ n, n = "a") (elementOrder p')) = 1
    ∧ (is_Some (elements p !! "a") → elementOrder p' = elementOrder p)
    ∧ (elements p !! "a" = None → elementOrder p' = elementOrder p ++ ["a"])
    ∧ (∀ other, other ≠ "a" → elements p' !! other = elements p !! other).
Proof.
  intros decls line. split; [by vm_compute|].
  apply (element_declared_once ["<!ELEMENT a (b)>"; "<!ELEMENT b EMPTY>"]
           "<!ELEMENT a (c, d)>" "a" "(c, d)").
  by vm_compute.
Defined.

(** ** Attribute lists *)

Lemma parseLine_attributes p line name attrs :
  declaredAttributes (entities p) line = Some (name, attrs) →
  parseLine p line
  = {| elements := elements p;
       attributes :=
         <[name := default [] (attributes p !! name) ++ attrs]> (attributes p);
       elementOrder := elementOrder p;
       entities := entities p |}.
Proof.
  unfold declaredAttributes, parseLine, parseAttributeList.
  destruct (HasPrefix (TrimSpace line) "<!ENTITY"); [done|].
  destruct (HasPrefix (TrimSpace line) "<!ELEMENT"); [done|].
  destruct (HasPrefix (TrimSpace line) "<!ATTLIST"); [|done].
  intros ->. by destruct (attributes p !! name).
Qed.

(** C5.  Two attribute lists for the same element, one read after the
    other: the attributes of the first go after those the element had, and
    the attributes of the second after those of the first. *)
Theorem attribute_lists_accumulate (p : DTDParser) (line1 line2 name : string)
    (attrs1 attrs2 : list DTDAttribute) :
  declaredAttributes (entities p) line1 = Some (name, attrs1) →
  declaredAttributes (entities p) line2 = Some (name, attrs2) →
  let p1 := parseLine p line1 in
  let p2 := parseLine p1 line2 in
  attributes p1 !! name = Some (default [] (attributes p !! name) ++ attrs1)
  ∧ attributes p2 !! name
    = Some (default [] (attributes p !! name) ++ attrs1 ++ attrs2).
Proof.
  intros H1 H2 p1 p2.
  assert (p1 = _) as Hp1 by exact (parseLine_attributes _ _ _ _ H1).
  assert (attributes p1 !! name
          = Some (default [] (attributes p !! name) ++ attrs1)) as Ha1.
  { rewrite Hp1. simpl. apply lookup_insert_eq. }
  split; [done|].
  assert (entities p1 = entities p) as He by by rewrite Hp1.
  unfold p2. rewrite (parseLine_attributes p1 line2 name attrs2).
  - simpl. rewrite lookup_insert_eq, Ha1. simpl. by rewrite app_assoc.
  - by rewrite He.
Qed.

Lemma attribute_lists_accumulate_witness :
  let p := parseLine NewDTDParser "<!ELEMENT x EMPTY>" in
  let line1 := "<!ATTLIST x id ID #REQUIRED>" in
  let line2 := "<!ATTLIST x lang CDATA #IMPLIED refs IDREFS #IMPLIED>" in
  let attrs1 := [mkAttribute "id" "ID" EmptyString true] in
  let attrs2 := [mkAttribute "lang" "CDATA" EmptyString false;
                 mkAttribute "refs" "IDREFS" EmptyString false] in
  declaredAttributes (entities p) line1 = Some ("x", attrs1)
  ∧ declaredAttributes (entities p) line2 = Some ("x", attrs2)
  ∧ attributes (parseLine p line1) !! "x"
    = Some (default [] (attributes p !! "x") ++ attrs1)
  ∧ attributes (parseLine (parseLine p line1) line2) !! "x"
    = Some (default [] (attributes p !! "x") ++ attrs1 ++ attrs2).
Proof.
  intros p line1 line2 attrs1 attrs2.
  split; [by vm_compute|]. split; [by vm_compute|].
  apply (attribute_lists_accumulate
           (parseLine NewDTDParser "<!ELEMENT x EMPTY>")
           "<!ATTLIST x id ID #REQUIRED>"
           "<!ATTLIST x lang CDATA #IMPLIED refs IDREFS #IMPLIED>" "x");
    by vm_compute.
Defined.

(** ** The order of the range over the attributes *)

Lemma associate_lookup visited els name :
  NoDup visited.*1 →
  associate visited els !! name
  = (λ element,
       match (list_to_map visited : gmap string (list DTDAttribute)) !! name
       with
       | Some attrs =>
           mkElement (elem_Name element) (elem_Content element) attrs
       | None => element
       end) <$> els !! name.
Proof.
  revert els. induction visited as [|[k attrs] visited IH]; intros els Hnd.
  - simpl. rewrite lookup_empty. by destruct (els !! name).
  - rewrite fmap_cons in Hnd. apply NoDup_cons in Hnd as [Hk Hnd].
    unfold associate in *. simpl. rewrite IH by done.
    destruct (decide (name = k)) as [->|Hne].
    + rewrite lookup_insert_eq.
      rewrite (not_elem_of_list_to_map_1 _ _ Hk).
      destruct (els !! k) eqn:He.
      * by rewrite lookup_insert_eq.
      * by rewrite He.
    + rewrite lookup_insert_ne by done.
      destruct (els !! k); [by rewrite lookup_insert_ne|done].
Qed.

Lemma associate_range range attrs els :
  is_range range → associate (range attrs) els = withAttributes attrs els.
Proof.
  intros Hrange. apply map_eq. intros name.
  assert (NoDup (range attrs).*1) as Hnd.
  { rewrite (Hrange attrs). apply NoDup_fst_map_to_list. }
  rewrite associate_lookup by done.
  rewrite (list_to_map_proper (range attrs) (map_to_list attrs)) by done.
  rewrite list_to_map_to_list.
  unfold withAttributes. rewrite map_lookup_imap.
  by destruct (els !! name).
Qed.

Lemma ParseFile_range range1 range2 p file :
  is_range range1 → is_range range2 →
  ParseFile range1 p file = ParseFile range2 p file.
Proof.
  intros H1 H2. destruct file as [err|lines [err|]]; simpl; [done..|].
  by rewrite !associate_range.
Qed.

(** C8.  The outcome of parsing a file and generating the structs for a
    package name is the same in the two runs, whatever the orders in which
    the two runs range over the map of the attributes. *)
Theorem pipeline_deterministic {U : UnicodeTables} (range1 range2 : MapRange)
    (packageName : string) (file : File) :
  is_range range1 → is_range range2 →
  pipeline range1 packageName file = pipeline range2 packageName file.
Proof.
  intros H1 H2. unfold pipeline.
  by rewrite (ParseFile_range range1 range2 NewDTDParser file H1 H2).
Qed.

Lemma pipeline_deterministic_witness :
  let U := latin1 in
  let file :=
    Opened ["<!ELEMENT a (b, c)>"; "<!ATTLIST a id ID #REQUIRED>";
            "<!ELEMENT b (#PCDATA)>"; "<!ATTLIST b lang CDATA #IMPLIED>";
            "<!ATTLIST c x CDATA #IMPLIED>"] None in
  is_range map_to_list
  ∧ is_range (λ m, reverse (map_to_list m))
  ∧ pipeline map_to_list "main" file
    = pipeline (λ m, reverse (map_to_list m)) "main" file.
Proof.
  intros U.
  intros file.
  assert (is_range map_to_list) as H1 by (intros m; reflexivity).
  assert (is_range (λ m, reverse (map_to_list m))) as H2
    by (intros m; apply reverse_Permutation).
  split; [exact H1|]. split; [exact H2|].
  exact (pipeline_deterministic map_to_list (λ m, reverse (map_to_list m))
           "main" file H1 H2).
Defined.

(** ** The attributes in the result *)

Lemma entities_parseLine p decl :
  entities (parseLine p decl) = entitiesAfter (entities p) decl.
Proof.
  unfold entitiesAfter. parseLine_cases decl; try done.
  by destruct (attributeList _ _) as [[? ?]|].
Qed.

Lemma attributes_parseLine p decl name :
  default [] (attributes (parseLine p decl) !! name)
  = default [] (attributes p !! name)
    ++ match declaredAttributes (entities p) decl with
       | Some (elementName, attrs) =>
           if decide (elementName = name) then attrs else []
       | None => []
       end.
Proof.
  destruct (declaredAttributes (entities p) decl) as [[n attrs]|] eqn:Hdecl.
  - rewrite (parseLine_attributes _ _ _ _ Hdecl). simpl.
    destruct (decide (n = name)) as [->|Hne].
    + by rewrite lookup_insert_eq.
    + by rewrite lookup_insert_ne, app_nil_r.
  - rewrite app_nil_r. f_equal. f_equal.
    unfold declaredAttributes in Hdecl.
    parseLine_cases decl; try done. by rewrite Hdecl.
Qed.

Lemma attributes_foldl decls p name :
  default [] (attributes (foldl parseLine p decls) !! name)
  = default [] (attributes p !! name)
    ++ attributesFor name (entities p) decls.
Proof.
  revert p. induction decls as [|decl decls IH]; intros p; simpl.
  - by rewrite app_nil_r.
  - by rewrite IH, attributes_parseLine, entities_parseLine, app_assoc.
Qed.

Lemma elements_parseLine p decl name :
  is_Some (elements (parseLine p decl) !! name)
  ↔ is_Some (elements p !! name)
    ∨ ∃ content, declaredElement decl = Some (name, content).
Proof.
  destruct (declaredElement decl) as [[n content]|] eqn:Hdecl.
  - rewrite (parseLine_element _ _ _ _ Hdecl). simpl.
    destruct (decide (n = name)) as [->|Hne].
    + rewrite lookup_insert_eq. split; [|by eexists]. intros _. right.
      by eexists.
    + rewrite lookup_insert_ne by done. split; [by left|].
      intros [?|[c [= ? ?]]]; done.
  - assert (elements (parseLine p decl) = elements p) as ->.
    { unfold declaredElement in Hdecl.
      parseLine_cases decl; try done.
      by destruct (attributeList _ _) as [[? ?]|]. }
    split; [by left|]. by intros [?|[c ?]].
Qed.

Lemma elements_foldl decls p name :
  is_Some (elements (foldl parseLine p decls) !! name)
  ↔ is_Some (elements p !! name) ∨ declares name decls.
Proof.
  revert p. induction decls as [|decl decls IH]; intros p; simpl.
  - split; [by left|]. intros [?|(d & c & Hd & _)]; [done|].
    by apply elem_of_nil in Hd.
  - rewrite IH, elements_parseLine. unfold declares. split.
    + intros [[?|[c Hc]]|(d & c & Hd & Hc)].
      * by left.
      * right. exists decl, c. split; [apply elem_of_cons; by left|done].
      * right. exists d, c. split; [apply elem_of_cons; by right|done].
    + intros [?|(d & c & [->|Hd]%elem_of_cons & Hc)].
      * left. by left.
      * left. right. by exists c.
      * right. by exists d, c.
Qed.

(** C9.  In the result of [ParseFile], the attributes of an element are
    those that the attribute lists naming it declare, in the order of the
    lists in the input, wherever the lists stand with respect to the
    declaration of the element; and a name is in the map of the elements,
    and in the order, exactly when some declaration declares that element,
    whatever attribute lists name it. *)
Theorem attributes_follow_declarations (range : MapRange)
    (lines : list string) (result : ParseResult) (name : string) :
  is_range range →
  ParseFile range NewDTDParser (Opened lines None) = Ok result →
  let decls := completeLines EmptyString lines in
  (∀ element, Elements result !! name = Some element →
     elem_Name element = name
     ∧ elem_Attributes element = attributesFor name ∅ decls)
  ∧ (is_Some (Elements result !! name) ↔ declares name decls)
  ∧ (name ∈ Order result ↔ declares name decls).
Proof.
  intros Hrange [= <-] decls. simpl.
  rewrite associate_range by done.
  pose proof (wellFormed_scanLines lines) as [Hnd Horder Hfresh].
  pose proof (attributes_foldl decls NewDTDParser name) as Hattrs.
  pose proof (elements_foldl decls NewDTDParser name) as Hels.
  unfold decls in Hattrs, Hels.
  rewrite <- scanLines_completeLines in Hattrs, Hels.
  fold decls in Hattrs, Hels.
  change (attributes NewDTDParser) with (∅ : gmap string (list DTDAttribute))
    in Hattrs.
  change (elements NewDTDParser) with (∅ : gmap string DTDElement) in Hels.
  change (entities NewDTDParser) with (∅ : gmap string string) in Hattrs.
  rewrite lookup_empty in Hattrs. rewrite lookup_empty in Hels.
  simpl in Hattrs.
  set (p := scanLines NewDTDParser lines) in *.
  assert (is_Some (elements p !! name) ↔ declares name decls) as Hdecl.
  { rewrite Hels. split; [|by right]. by intros [[? [=]]|?]. }
  unfold withAttributes. rewrite map_lookup_imap.
  split_and!.
  - intros element.
    destruct (elements p !! name) as [e|] eqn:He; [|done].
    destruct (Hfresh _ _ He) as [Hn Ha]. simpl. intros [= <-].
    rewrite <- Hattrs.
    by destruct (attributes p !! name).
  - rewrite <- Hdecl.
    by destruct (elements p !! name).
  - by rewrite Horder.
Qed.

Lemma attributes_follow_declarations_witness :
  let lines := ["<!ATTLIST a id ID #REQUIRED>"; "<!ELEMENT a (b)>";
                "<!ATTLIST c x CDATA #IMPLIED>";
                "<!ATTLIST a lang CDATA #IMPLIED>"; "<!ELEMENT a (b, c)>"] in
  let result :=
    {| Elements :=
         {[ "a" := mkElement "a" "(b, c)"
                     [mkAttribute "id" "ID" EmptyString true;
                      mkAttribute "lang" "CDATA" EmptyString false] ]};
       Order := ["a"] |} in
  is_range map_to_list
  ∧ ParseFile map_to_list NewDTDParser (Opened lines None) = Ok result
  ∧ let decls := completeLines EmptyString lines in
    ∀ name,
      (∀ element, Elements result !! name = Some element →
         elem_Name element = name
         ∧ elem_Attributes element = attributesFor name ∅ decls)
      ∧ (is_Some (Elements result !! name) ↔ declares name decls)
      ∧ (name ∈ Order result ↔ declares name decls).
Proof.
  intros lines result.
  assert (is_range map_to_list) as H1 by (intros m; reflexivity).
  assert (ParseFile map_to_list NewDTDParser (Opened lines None) = Ok result)
    as H2 by (by vm_compute).
  split; [exact H1|]. split; [exact H2|]. intros decls name.
  exact (attributes_follow_declarations map_to_list lines result name H1 H2).
Defined.

(** ** Entity references in attribute lists *)

Lemma attrStep_entity entities parts i attrs part entityValue :
  parts !! i = Some part →
  HasPrefix part "%" = true → HasSuffix part ";" = true →
  entities !! TrimSuffix (TrimPrefix part "%") ";" = Some entityValue →
  attrStep entities parts i attrs = (parseEntityValue entityValue attrs, S i).
Proof.
  intros Hi Hp Hs He. unfold attrStep, at_. rewrite Hi. simpl.
  by rewrite Hp, Hs, He.
Qed.

(** An entity value with a parenthesised type: the attribute is named
    after the first token, has the type [string], and reads its default
    from the token after the first one that holds a [)]. *)
Lemma parseEntityValue_enumerated entityValue attrs typeEnd defaultInfo :
  3 ≤ length (Fields entityValue) →
  firstContaining ")" (Fields entityValue) 0 = Z.of_nat typeEnd →
  Fields entityValue !! S typeEnd = Some defaultInfo →
  parseEntityValue entityValue attrs
  = attrs ++ [withDefault (at_ (Fields entityValue) 0) "string" defaultInfo].
Proof.
  intros Hlen Hend Hdefault. unfold parseEntityValue.
  destruct (Nat.ltb_spec (length (Fields entityValue)) 3) as [?|_]; [lia|].
  rewrite Hend.
  apply lookup_lt_Some in Hdefault as Hlt.
  destruct (Z.ltb_spec (Z.of_nat typeEnd + 1)
              (Z.of_nat (length (Fields entityValue)))) as [_|?]; [|lia].
  replace (Z.to_nat (Z.of_nat typeEnd + 1)) with (S typeEnd) by lia.
  unfold at_ at 2. by rewrite Hdefault.
Qed.

(** The entity [<!ENTITY % e "status ( a | b ) #REQUIRED">] referred to by
    [<!ATTLIST x %e;>]: one required attribute [status] of type [string]. *)
Example entity_status_required :
  ParseFile map_to_list NewDTDParser
    (Opened ["<!ENTITY % e " +:+ dquote +:+ "status ( a | b ) #REQUIRED"
               +:+ dquote +:+ ">";
             "<!ELEMENT x EMPTY>";
             "<!ATTLIST x %e;>"] None)
  = Ok {| Elements :=
            {[ "x" := mkElement "x" "EMPTY"
                        [mkAttribute "status" "string" EmptyString true] ]};
          Order := ["x"] |}.
Proof. by vm_compute. Qed.

(** C3, where the code departs from it.  For the entity
    [<!ENTITY % e "id CDATA #REQUIRED">], whose type has no parentheses,
    [<!ATTLIST x %e;>] gives the attribute [id] of type [string] that is
    not required and has the default [id]: with no token holding a [)],
    [typeEnd] stays [-1] and the default is read from the first token, the
    name, instead of the token after the type, [#REQUIRED]. *)
Theorem entity_plain_type_reads_name_as_default :
  parseEntityValue "id CDATA #REQUIRED" []
  = [mkAttribute "id" "string" "id" false]
  ∧ ParseFile map_to_list NewDTDParser
      (Opened ["<!ENTITY % e " +:+ dquote +:+ "id CDATA #REQUIRED"
                 +:+ dquote +:+ ">";
               "<!ELEMENT x EMPTY>";
               "<!ATTLIST x %e;>"] None)
    = Ok {| Elements :=
              {[ "x" := mkElement "x" "EMPTY"
                          [mkAttribute "id" "string" "id" false] ]};
            Order := ["x"] |}.
Proof. split; by vm_compute. Qed.

(** * More of the parser *)

(** ** The result of [ParseFile] *)

Lemma parseLine_no_element p decl :
  declaredElement decl = None →
  elements (parseLine p decl) = elements p
  ∧ elementOrder (parseLine p decl) = elementOrder p.
Proof.
  unfold declaredElement. intros Hdecl.
  parseLine_cases decl; try done.
  by destruct (attributeList _ _) as [[? ?]|].
Qed.

Lemma elementOrder_foldl decls p :
  wellFormed p →
  elementOrder (foldl parseLine p decls)
  = elementOrder p
    ++ firstOccurrences
         (filter (λ name, name ∉ elementOrder p) (declaredNames decls)).
Proof.
  revert p. induction decls as [|decl decls IH]; intros p Hp; simpl.
  - by rewrite app_nil_r.
  - pose proof (wellFormed_parseLine p decl Hp) as Hp'.
    rewrite (IH _ Hp'). unfold declaredNames. simpl.
    destruct (declaredElement decl) as [[n c]|] eqn:Hdecl; simpl.
    + rewrite (parseLine_element _ _ _ _ Hdecl). simpl.
      destruct (elements p !! n) as [e|] eqn:Hn.
      * rewrite filter_cons_False; [done|].
        intros Hnot. apply Hnot, (order_elements _ Hp). by rewrite Hn.
      * assert (n ∉ elementOrder p) as Hnot.
        { intros [? Hin]%(order_elements _ Hp). congruence. }
        rewrite filter_cons_True by done. simpl.
        rewrite <- app_assoc. simpl. do 2 f_equal.
        rewrite <- firstOccurrences_filter, list_filter_filter.
        f_equal. apply list_filter_iff. intros x.
        rewrite not_elem_of_app, list_elem_of_singleton. tauto.
    + destruct (parseLine_no_element p decl Hdecl) as [_ ->]. done.
Qed.

Lemma firstOccurrences_nil l : firstOccurrences l = [] ↔ l = [].
Proof. by destruct l. Qed.

Lemma elements_foldl_lookup decls p name :
  elements (foldl parseLine p decls) !! name
  = match lastContent name decls with
    | Some content => Some (mkElement name content [])
    | None => elements p !! name
    end.
Proof.
  revert p. induction decls as [|decl decls IH]; intros p; [done|].
  simpl. rewrite IH. destruct (lastContent name decls); [done|].
  destruct (declaredElement decl) as [[n c]|] eqn:Hdecl.
  - rewrite (parseLine_element _ _ _ _ Hdecl). simpl.
    destruct (decide (n = name)) as [->|Hne].
    + by rewrite lookup_insert_eq.
    + by rewrite lookup_insert_ne.
  - by destruct (parseLine_no_element p decl Hdecl) as [-> _].
Qed.

Lemma withAttributes_lookup attrs els name :
  withAttributes attrs els !! name
  = (λ element,
       match attrs !! name with
       | Some l => mkElement (elem_Name element) (elem_Content element) l
       | None => element
       end) <$> els !! name.
Proof.
  unfold withAttributes. rewrite map_lookup_imap.
  by destruct (els !! name).
Qed.

Lemma ParseFile_Ok range lines :
  is_range range →
  ParseFile range NewDTDParser (Opened lines None)
  = Ok {| Elements := withAttributes (attributes (scanLines NewDTDParser lines))
                        (elements (scanLines NewDTDParser lines));
          Order := elementOrder (scanLines NewDTDParser lines) |}.
Proof. intros Hrange. simpl. by rewrite associate_range. Qed.

(** X1.  The result of [ParseFile] is consistent: the order has no name
    twice, a name is in the order exactly when the map has an element for
    it, that element carries the name it is stored under, and the order is
    as long as the map is large. *)
Theorem parse_result_consistent (range : MapRange) (lines : list string)
    (result : ParseResult) :
  is_range range →
  ParseFile range NewDTDParser (Opened lines None) = Ok result →
  NoDup (Order result)
  ∧ (∀ name, name ∈ Order result ↔ is_Some (Elements result !! name))
  ∧ (∀ name element,
       Elements result !! name = Some element → elem_Name element = name)
  ∧ length (Order result) = size (Elements result).
Proof.
  intros Hrange. rewrite (ParseFile_Ok range lines Hrange). intros [= <-].
  pose proof (wellFormed_scanLines lines) as [Hnd Horder Hfresh].
  set (p := scanLines NewDTDParser lines) in *. simpl.
  assert (∀ name, name ∈ elementOrder p
                  ↔ is_Some (withAttributes (attributes p) (elements p) !! name))
    as Hin.
  { intros name. rewrite Horder, withAttributes_lookup.
    by rewrite fmap_is_Some. }
  split_and!; [done|done| |].
  - intros name element. rewrite withAttributes_lookup.
    destruct (elements p !! name) as [e|] eqn:He; [|done].
    destruct (Hfresh _ _ He) as [Hname _]. simpl. intros [= <-].
    by destruct (attributes p !! name).
  - rewrite <- size_dom, <- (size_list_to_set (C:=gset string)) by done.
    f_equal. apply set_eq. intros name.
    by rewrite elem_of_list_to_set, elem_of_dom.
Qed.

Lemma parse_result_consistent_witness :
  let lines := ["<!ELEMENT a (b)>"; "<!ELEMENT b EMPTY>"; "<!ELEMENT a (c)>"] in
  let result :=
    {| Elements := {[ "a" := mkElement "a" "(c)" [];
                      "b" := mkElement "b" "EMPTY" [] ]};
       Order := ["a"; "b"] |} in
  is_range map_to_list
  ∧ ParseFile map_to_list NewDTDParser (Opened lines None) = Ok result
  ∧ NoDup (Order result)
  ∧ (∀ name, name ∈ Order result ↔ is_Some (Elements result !! name))
  ∧ (∀ name element,
       Elements result !! name = Some element → elem_Name element = name)
  ∧ length (Order result) = size (Elements result).
Proof.
  intros lines result.
  assert (is_range map_to_list) as H1 by (intros m; reflexivity).
  assert (ParseFile map_to_list NewDTDParser (Opened lines None) = Ok result)
    as H2 by (by vm_compute).
  split; [exact H1|]. split; [exact H2|].
  exact (parse_result_consistent map_to_list lines result H1 H2).
Defined.

(** X2.  The order of the result lists the declared element names by
    their first declarations, and the element stored for a name has the
    content of the last declaration of the name and the attributes of all
    the attribute lists for the name. *)
Theorem parse_result_described (range : MapRange) (lines : list string)
    (result : ParseResult) :
  is_range range →
  ParseFile range NewDTDParser (Opened lines None) = Ok result →
  let decls := completeLines EmptyString lines in
  Order result = firstOccurrences (declaredNames decls)
  ∧ ∀ name,
      Elements result !! name
      = (λ content, mkElement name content (attributesFor name ∅ decls))
          <$> lastContent name decls.
Proof.
  intros Hrange. rewrite (ParseFile_Ok range lines Hrange). intros [= <-] decls.
  simpl. rewrite !scanLines_completeLines. fold decls. split.
  - rewrite (elementOrder_foldl decls _ wellFormed_new). simpl. f_equal.
    induction (declaredNames decls) as [|n l IH]; [done|].
    rewrite filter_cons_True by apply not_elem_of_nil. by rewrite IH.
  - intros name. rewrite withAttributes_lookup, elements_foldl_lookup.
    pose proof (attributes_foldl decls NewDTDParser name) as Hattrs.
    change (attributes NewDTDParser !! name)
      with ((∅ : gmap string (list DTDAttribute)) !! name) in Hattrs.
    rewrite lookup_empty in Hattrs. simpl in Hattrs.
    change (elements NewDTDParser !! name)
      with ((∅ : gmap string DTDElement) !! name).
    rewrite lookup_empty.
    destruct (lastContent name decls) as [content|]; [|done]. simpl.
    rewrite <- Hattrs.
    by destruct (attributes (foldl parseLine NewDTDParser decls) !! name).
Qed.

Lemma parse_result_described_witness :
  let lines := ["<!ELEMENT b EMPTY>"; "<!ATTLIST a id ID #REQUIRED>";
                "<!ELEMENT a (b)>"; "<!ELEMENT b (#PCDATA)>"] in
  let result :=
    {| Elements := {[ "a" := mkElement "a" "(b)"
                               [mkAttribute "id" "ID" EmptyString true];
                      "b" := mkElement "b" "(#PCDATA)" [] ]};
       Order := ["b"; "a"] |} in
  is_range map_to_list
  ∧ ParseFile map_to_list NewDTDParser (Opened lines None) = Ok result
  ∧ let decls := completeLines EmptyString lines in
    Order result = firstOccurrences (declaredNames decls)
    ∧ ∀ name,
        Elements result !! name
        = (λ content, mkElement name content (attributesFor name ∅ decls))
            <$> lastContent name decls.
Proof.
  intros lines result.
  assert (is_range map_to_list) as H1 by (intros m; reflexivity).
  assert (ParseFile map_to_list NewDTDParser (Opened lines None) = Ok result)
    as H2 by (by vm_compute).
  split; [exact H1|]. split; [exact H2|].
  exact (parse_result_described map_to_list lines result H1 H2).
Defined.

(** ** Input without elements *)

Lemma wellFormed_size p :
  wellFormed p → length (elementOrder p) = size (elements p).
Proof.
  intros [Hnd Horder _].
  rewrite <- size_dom, <- (size_list_to_set (C:=gset string)) by done.
  f_equal. apply set_eq. intros name.
  by rewrite elem_of_list_to_set, elem_of_dom.
Qed.

Lemma withAttributes_size attrs els :
  size (withAttributes attrs els) = size els.
Proof.
  rewrite <- !size_dom. f_equal. apply set_eq. intros name.
  by rewrite !elem_of_dom, withAttributes_lookup, fmap_is_Some.
Qed.

Lemma completeLines_skipped currentLine lines :
  Forall (λ text, skipped text = true) lines →
  completeLines currentLine lines = [].
Proof.
  induction 1 as [|text lines Htext _ IH]; [done|].
  simpl. unfold skipped in Htext. by rewrite Htext.
Qed.

(** X3.  For a file that is read to its end, the run ends with "no
    elements" exactly when no complete declaration declares an element, and
    never with a parse error; a file of blank lines and comment lines is
    such a file. *)
Theorem pipeline_without_elements {U : UnicodeTables} (range : MapRange) (packageName : string)
    (lines : list string) :
  is_range range →
  (pipeline range packageName (Opened lines None) = NoElements
   ↔ declaredNames (completeLines EmptyString lines) = [])
  ∧ (∀ err, pipeline range packageName (Opened lines None) ≠ ParseError err)
  ∧ (Forall (λ text, skipped text = true) lines →
     pipeline range packageName (Opened lines None) = NoElements).
Proof.
  intros Hrange.
  assert (size (withAttributes (attributes (scanLines NewDTDParser lines))
                  (elements (scanLines NewDTDParser lines))) = 0
          ↔ declaredNames (completeLines EmptyString lines) = []) as Hsize.
  { rewrite withAttributes_size, <- wellFormed_size
      by apply wellFormed_scanLines.
    rewrite scanLines_completeLines.
    rewrite (elementOrder_foldl _ _ wellFormed_new). simpl.
    rewrite length_zero_iff_nil, firstOccurrences_nil.
    induction (declaredNames _) as [|n l IH]; [done|].
    by rewrite filter_cons_True by apply not_elem_of_nil. }
  unfold pipeline. rewrite (ParseFile_Ok range lines Hrange). simpl.
  destruct (Nat.eqb_spec
              (size (withAttributes (attributes (scanLines NewDTDParser lines))
                       (elements (scanLines NewDTDParser lines)))) 0)
    as [Hz|Hnz].
  - split_and!; [|done|done]. split; [intros _|done]. by apply Hsize.
  - split_and!; [|done|].
    + split; [done|]. intros Hnil. by apply Hsize in Hnil.
    + intros Hskip. exfalso. apply Hnz, Hsize.
      by rewrite completeLines_skipped.
Qed.

Lemma pipeline_without_elements_witness :
  let U := latin1 in
  let lines := ["<!-- a comment -->"; EmptyString; "   "; "<!-- more"] in
  is_range map_to_list
  ∧ (pipeline map_to_list "main" (Opened lines None) = NoElements
     ↔ declaredNames (completeLines EmptyString lines) = [])
  ∧ (∀ err, pipeline map_to_list "main" (Opened lines None) ≠ ParseError err)
  ∧ (Forall (λ text, skipped text = true) lines →
     pipeline map_to_list "main" (Opened lines None) = NoElements).
Proof.
  intros U.
  intros lines.
  assert (is_range map_to_list) as H1 by (intros m; reflexivity).
  split; [exact H1|].
  exact (pipeline_without_elements map_to_list "main" lines H1).
Defined.

(** ** Blank lines and comments *)

Lemma scanStep_skipped st text : skipped text = true → scanStep st text = st.
Proof.
  destruct st as [p currentLine]. unfold skipped, scanStep. by intros ->.
Qed.

Lemma foldl_scanStep_filter lines st :
  foldl scanStep st lines
  = foldl scanStep st (filter (λ text, skipped text = false) lines).
Proof.
  revert st. induction lines as [|text lines IH]; intros st; [done|].
  destruct (skipped text) eqn:Hskip.
  - rewrite filter_cons_False by (by rewrite Hskip). simpl.
    by rewrite scanStep_skipped.
  - rewrite filter_cons_True by done. simpl. apply IH.
Qed.

(** X4.  Blank lines and lines that start a comment change nothing,
    wherever they stand, also between the lines of one declaration:
    [ParseFile] returns what it returns for the file without them. *)
Theorem skipped_lines_ignored (range : MapRange) (p : DTDParser)
    (lines : list string) (scanErr : option string) :
  ParseFile range p (Opened lines scanErr)
  = ParseFile range p
      (Opened (filter (λ text, skipped text = false) lines) scanErr).
Proof.
  destruct scanErr as [err|]; [done|]. unfold ParseFile, scanLines.
  by rewrite <- foldl_scanStep_filter.
Qed.

(** ** What a declaration changes *)

(** X5.  A declaration changes only the table of its kind: an entity
    declaration leaves the elements, the attributes and the order as they
    are, an element declaration the attributes and the entities, an
    attribute list the elements, the order and the entities; any other line
    leaves the parser as it is. *)
Theorem declaration_changes_its_table (p : DTDParser) (decl : string) :
  let line := TrimSpace decl in
  let p' := parseLine p decl in
  if HasPrefix line "<!ENTITY" then
    elements p' = elements p ∧ attributes p' = attributes p
    ∧ elementOrder p' = elementOrder p
  else if HasPrefix line "<!ELEMENT" then
    attributes p' = attributes p ∧ entities p' = entities p
  else if HasPrefix line "<!ATTLIST" then
    elements p' = elements p ∧ elementOrder p' = elementOrder p
    ∧ entities p' = entities p
  else p' = p.
Proof.
  intros line p'. unfold p', line.
  parseLine_cases decl; try done.
  by destruct (attributeList _ _) as [[? ?]|].
Qed.

(** * More of the attribute lists *)

(** ** Required attributes and default values *)

Lemma chars_str l : chars (str l) = l.
Proof. apply String.list_ascii_of_string_of_list_ascii. Qed.

Lemma dropWhile_head f l c : head (dropWhile f l) = Some c → f c = false.
Proof.
  induction l as [|x l IH]; [done|]. simpl.
  destruct (f x) eqn:Hx; [done|]. simpl. by intros [= <-].
Qed.

Lemma dropWhile_suffix f l : ∃ pre, l = pre ++ dropWhile f l.
Proof.
  induction l as [|x l [pre IH]]; [by exists []|]. simpl.
  destruct (f x).
  - exists (x :: pre). simpl. by f_equal.
  - by exists [].
Qed.

Lemma Trim_ends s cutset c :
  c ∈ chars cutset →
  head (chars (Trim s cutset)) ≠ Some c
  ∧ head (rev (chars (Trim s cutset))) ≠ Some c.
Proof.
  intros Hc. unfold Trim. rewrite chars_str, rev_involutive.
  set (cut := λ c, bool_decide (c ∈ chars cutset)).
  assert (cut c = true) as Hcut by by apply bool_decide_eq_true.
  set (X := dropWhile cut (chars s)).
  assert (head X ≠ Some c) as HX.
  { intros H%dropWhile_head. congruence. }
  split.
  - destruct (dropWhile_suffix cut (rev X)) as [pre Hpre].
    destruct (dropWhile cut (rev X)) as [|d D] eqn:HD; [done|].
    apply (f_equal (@rev ascii)) in Hpre.
    rewrite rev_involutive, rev_app_distr in Hpre.
    rewrite Hpre in HX.
    destruct (rev (d :: D)) as [|e E] eqn:HE; [|done].
    apply (f_equal (@length ascii)) in HE. rewrite length_rev in HE. done.
  - intros H%dropWhile_head. congruence.
Qed.

Lemma withDefault_consistent name type defaultInfo :
  consistentAttribute (withDefault name type defaultInfo).
Proof.
  unfold withDefault.
  destruct (defaultInfo =? "#REQUIRED"); [by split_and!|].
  destruct (defaultInfo =? "#IMPLIED"); simpl; [by split_and!|].
  split; [done|]. simpl. apply Trim_ends. apply list_elem_of_singleton.
  reflexivity.
Qed.

Lemma parseEntityValue_consistent entityValue attrs :
  Forall consistentAttribute attrs →
  Forall consistentAttribute (parseEntityValue entityValue attrs).
Proof.
  intros Hattrs. unfold parseEntityValue.
  destruct (_ <? _)%nat; [done|].
  apply Forall_app. split; [done|].
  apply Forall_singleton, withDefault_consistent.
Qed.

Lemma attrStep_consistent entities parts i attrs :
  Forall consistentAttribute attrs →
  Forall consistentAttribute (attrStep entities parts i attrs).1.
Proof.
  intros Hattrs. unfold attrStep.
  repeat match goal with
         | |- context [if ?b then _ else _] => destruct b
         | |- context [match ?o with Some _ => _ | None => _ end] => destruct o
         end; simpl;
    auto using parseEntityValue_consistent;
    apply Forall_app; (split; [done|]);
    apply Forall_singleton, withDefault_consistent.
Qed.

Lemma attrLoop_consistent fuel entities parts i attrs :
  Forall consistentAttribute attrs →
  Forall consistentAttribute (attrLoop fuel entities parts i attrs).
Proof.
  revert i attrs. induction fuel as [|fuel IH]; intros i attrs Hattrs; [done|].
  simpl. destruct (_ <? _)%nat; [|done].
  pose proof (attrStep_consistent entities parts i attrs Hattrs) as Hstep.
  destruct (attrStep entities parts i attrs) as [attrs' i']. by apply IH.
Qed.

Lemma attributeList_consistent entities line name attrs :
  attributeList entities line = Some (name, attrs) →
  Forall consistentAttribute attrs.
Proof.
  unfold attributeList. destruct (Fields _) as [|n parts]; [done|].
  intros [= _ <-]. by apply attrLoop_consistent.
Qed.

Lemma attributes_consistent_parseLine p decl :
  (∀ name attrs, attributes p !! name = Some attrs →
                 Forall consistentAttribute attrs) →
  ∀ name attrs, attributes (parseLine p decl) !! name = Some attrs →
                Forall consistentAttribute attrs.
Proof.
  intros Hp name attrs.
  destruct (declaredAttributes (entities p) decl) as [[n new]|] eqn:Hdecl.
  - rewrite (parseLine_attributes _ _ _ _ Hdecl). simpl.
    destruct (decide (n = name)) as [->|Hne].
    + rewrite lookup_insert_eq. intros [= <-]. apply Forall_app. split.
      * destruct (attributes p !! name) as [old|] eqn:Hold; [|done].
        by apply (Hp name).
      * unfold declaredAttributes in Hdecl.
        repeat match type of Hdecl with
               | (if ?b then _ else _) = _ => destruct b; [try done|try done]
               end.
        by eapply attributeList_consistent.
    + rewrite lookup_insert_ne by done. apply Hp.
  - pose proof (attributes_parseLine p decl name) as H.
    rewrite Hdecl, app_nil_r in H.
    assert (attributes (parseLine p decl) = attributes p) as ->; [|apply Hp].
    unfold declaredAttributes in Hdecl.
    parseLine_cases decl; try done. by rewrite Hdecl.
Qed.

Lemma attributes_consistent_foldl decls p :
  (∀ name attrs, attributes p !! name = Some attrs →
                 Forall consistentAttribute attrs) →
  ∀ name attrs, attributes (foldl parseLine p decls) !! name = Some attrs →
                Forall consistentAttribute attrs.
Proof.
  revert p. induction decls as [|decl decls IH]; intros p Hp; [done|].
  simpl. apply IH. by apply attributes_consistent_parseLine.
Qed.

(** X6.  In the result of [ParseFile], no attribute is both required and
    has a default value, and no default value starts or ends with a double
    quote. *)
Theorem parsed_attributes_consistent (range : MapRange) (lines : list string)
    (result : ParseResult) (name : string) (element : DTDElement) :
  is_range range →
  ParseFile range NewDTDParser (Opened lines None) = Ok result →
  Elements result !! name = Some element →
  Forall consistentAttribute (elem_Attributes element).
Proof.
  intros Hrange. rewrite (ParseFile_Ok range lines Hrange). intros [= <-].
  simpl. rewrite withAttributes_lookup.
  pose proof (wellFormed_scanLines lines) as [_ _ Hfresh].
  destruct (elements (scanLines NewDTDParser lines) !! name) as [e|] eqn:He;
    [|done].
  destruct (Hfresh _ _ He) as [_ Hnil]. simpl.
  destruct (attributes (scanLines NewDTDParser lines) !! name)
    as [attrs|] eqn:Hattrs; intros [= <-]; simpl.
  - rewrite scanLines_completeLines in Hattrs.
    eapply attributes_consistent_foldl; [|exact Hattrs].
    intros n l.
    change (attributes NewDTDParser)
      with (∅ : gmap string (list DTDAttribute)).
    by rewrite lookup_empty.
  - by rewrite Hnil.
Qed.

Lemma parsed_attributes_consistent_witness :
  let lines := ["<!ELEMENT price (#PCDATA)>";
                "<!ATTLIST price currency CDATA " +:+ dquote +:+ "USD"
                  +:+ dquote +:+ " id ID #REQUIRED>"] in
  let price := mkElement "price" "(#PCDATA)"
                 [mkAttribute "currency" "CDATA" "USD" false;
                  mkAttribute "id" "ID" EmptyString true] in
  let result := {| Elements := {[ "price" := price ]}; Order := ["price"] |} in
  is_range map_to_list
  ∧ ParseFile map_to_list NewDTDParser (Opened lines None) = Ok result
  ∧ Elements result !! "price" = Some price
  ∧ Forall consistentAttribute (elem_Attributes price).
Proof.
  intros lines price result.
  assert (is_range map_to_list) as H1 by (intros m; reflexivity).
  assert (ParseFile map_to_list NewDTDParser (Opened lines None) = Ok result)
    as H2 by (by vm_compute).
  assert (Elements result !! "price" = Some price) as H3 by (by vm_compute).
  split; [exact H1|]. split; [exact H2|]. split; [exact H3|].
  exact (parsed_attributes_consistent map_to_list lines result "price" price
           H1 H2 H3).
Defined.

(** ** Well-formed attribute lists *)

Lemma scanParens_shift rest j n :
  scanParens rest j n = j + scanParens rest 0 n.
Proof.
  revert j n. induction rest as [|part rest IH]; intros j n; simpl; [lia|].
  destruct ((countParens part n =? 0)%Z && Contains part ")"); [lia|].
  rewrite (IH (S j)), (IH 1). lia.
Qed.

Lemma scanParens_app ts more n :
  scanParens ts 0 n < length ts →
  scanParens (ts ++ more) 0 n = scanParens ts 0 n.
Proof.
  revert n. induction ts as [|t ts IH]; intros n; simpl; [lia|].
  destruct ((countParens t n =? 0)%Z && Contains t ")"); [done|].
  rewrite (scanParens_shift ts 1), (scanParens_shift (ts ++ more) 1).
  intros H. rewrite IH; [done|lia].
Qed.

Lemma parseEntityValue_app entityValue attrs :
  parseEntityValue entityValue attrs
  = attrs ++ parseEntityValue entityValue [].
Proof.
  unfold parseEntityValue. destruct (_ <? _)%nat; [by rewrite app_nil_r|done].
Qed.

Lemma attrStep_app entities parts i attrs :
  attrStep entities parts i attrs
  = (attrs ++ (attrStep entities parts i []).1,
     (attrStep entities parts i []).2).
Proof.
  unfold attrStep.
  repeat match goal with
         | |- context [if ?b then _ else _] => destruct b
         | |- context [match ?o with Some _ => _ | None => _ end] => destruct o
         end; simpl; rewrite ?app_nil_r; try done.
  by rewrite parseEntityValue_app.
Qed.

Lemma attrLoop_app fuel entities parts i attrs :
  attrLoop fuel entities parts i attrs
  = attrs ++ attrLoop fuel entities parts i [].
Proof.
  revert i attrs. induction fuel as [|fuel IH]; intros i attrs; simpl.
  - by rewrite app_nil_r.
  - destruct (_ <? _)%nat; [|by rewrite app_nil_r].
    rewrite attrStep_app.
    destruct (attrStep entities parts i []) as [new i']. simpl.
    rewrite IH, (IH i' new). by rewrite app_assoc.
Qed.

Lemma at_shift pre parts i : at_ (pre ++ parts) (length pre + i) = at_ parts i.
Proof.
  unfold at_. rewrite lookup_app_r by lia. do 2 f_equal. lia.
Qed.

Lemma attrStep_shift entities pre parts i attrs :
  attrStep entities (pre ++ parts) (length pre + i) attrs
  = ((attrStep entities parts i attrs).1,
     length pre + (attrStep entities parts i attrs).2).
Proof.
  unfold attrStep.
  rewrite at_shift.
  replace (length pre + i + 1) with (length pre + (i + 1)) by lia.
  replace (length pre + i + 2) with (length pre + (i + 2)) by lia.
  rewrite !at_shift, length_app.
  replace (length pre + (i + 2) <? length pre + length parts)%nat
    with (i + 2 <? length parts)%nat
    by (destruct (Nat.ltb_spec (i + 2) (length parts));
        destruct (Nat.ltb_spec (length pre + (i + 2))
                    (length pre + length parts)); lia || done).
  rewrite drop_app_add.
  rewrite (scanParens_shift _ (length pre + (i + 1))),
          (scanParens_shift _ (i + 1)).
  set (j := scanParens (drop (i + 1) parts) 0 0).
  replace (length pre + (i + 1) + j + 1)
    with (length pre + (i + 1 + j + 1)) by lia.
  rewrite at_shift.
  replace (length pre + (i + 1 + j + 1) <? length pre + length parts)%nat
    with (i + 1 + j + 1 <? length parts)%nat
    by (destruct (Nat.ltb_spec (i + 1 + j + 1) (length parts));
        destruct (Nat.ltb_spec (length pre + (i + 1 + j + 1))
                    (length pre + length parts)); lia || done).
  repeat match goal with
         | |- context [if ?b then _ else _] => destruct b
         | |- context [match ?o with Some _ => _ | None => _ end] => destruct o
         end; simpl; f_equal; lia.
Qed.

Lemma attrLoop_shift fuel entities pre parts i attrs :
  attrLoop fuel entities (pre ++ parts) (length pre + i) attrs
  = attrLoop fuel entities parts i attrs.
Proof.
  revert i attrs. induction fuel as [|fuel IH]; intros i attrs; [done|].
  simpl. rewrite length_app.
  replace (length pre + i <? length pre + length parts)%nat
    with (i <? length parts)%nat
    by (destruct (Nat.ltb_spec i (length parts));
        destruct (Nat.ltb_spec (length pre + i) (length pre + length parts));
        lia || done).
  destruct (_ <? _)%nat; [|done].
  rewrite attrStep_shift.
  destruct (attrStep entities parts i attrs) as [attrs' i']. simpl.
  apply IH.
Qed.

(** The loop over the tokens of one definition and the rest: the
    attributes of the definition, then the loop over the rest. *)
Lemma attrLoop_item entities tokens rest new :
  attrStep entities (tokens ++ rest) 0 [] = (new, length tokens) →
  0 < length tokens →
  attrLoop (length (tokens ++ rest)) entities (tokens ++ rest) 0 []
  = new ++ attrLoop (length rest) entities rest 0 [].
Proof.
  intros Hstep Hpos. rewrite length_app.
  destruct (length tokens + length rest) as [|fuel] eqn:Hfuel; [lia|].
  simpl. rewrite length_app.
  destruct (Nat.ltb_spec 0 (length tokens + length rest)); [|lia].
  rewrite Hstep, attrLoop_app. f_equal.
  transitivity (attrLoop fuel entities rest 0 []).
  - rewrite <- (attrLoop_shift fuel entities tokens rest 0 []).
    f_equal. lia.
  - apply attrLoop_enough; lia.
Qed.

Lemma attrStep_item entities item rest :
  wellFormedItem item →
  attrStep entities (itemTokens item ++ rest) 0 []
  = (itemAttributes entities item, length (itemTokens item)).
Proof.
  destruct item as [name type d|name ts d|token]; simpl.
  - intros [Hname Htype]. unfold attrStep, isReference in *. simpl.
    change (at_ (name :: type :: d :: rest) 0) with name.
    change (at_ (name :: type :: d :: rest) 1) with type.
    by rewrite Hname, Htype.
  - intros (Hname & Hopen & Hclose).
    destruct ts as [|t ts]; [done|].
    change (at_ (t :: ts) 0) with t in Hopen.
    assert (scanParens (t :: ts ++ d :: rest) 1 0 = S (length ts)) as Hj.
    { change (scanParens ((t :: ts) ++ d :: rest) 1 0 = S (length ts)).
      rewrite scanParens_shift. rewrite scanParens_app by lia.
      cbn [length] in Hclose. lia. }
    unfold attrStep, isReference in *.
    cbn [itemTokens app Nat.add drop length].
    replace ((ts ++ [d]) ++ rest) with (ts ++ d :: rest)
      by by rewrite <- app_assoc.
    change (at_ (name :: t :: ts ++ d :: rest) 0) with name.
    change (at_ (name :: t :: ts ++ d :: rest) 1) with t.
    rewrite Hname, Hopen. cbn [andb].
    rewrite !Hj, !length_app. cbn [length].
    destruct (Nat.ltb_spec 2 (S (S (length ts + S (length rest))))); [|lia].
    destruct (Nat.ltb_spec (S (length ts) + 1)
                (S (S (length ts + S (length rest))))); [|lia].
    f_equal; [|lia]. do 2 f_equal. unfold at_.
    replace (S (length ts) + 1) with (S (S (length ts))) by lia.
    exact (f_equal (default EmptyString)
             (list_lookup_middle ts rest d (length ts) eq_refl)).
  - intros Href. unfold attrStep. simpl.
    change (at_ (token :: rest) 0) with token.
    unfold isReference in Href. rewrite Href.
    by destruct (entities !! _).
Qed.




(** * The names the expressions capture *)

Lemma run_Seq {R} r1 r2 s caps (k : string → list string → option R) :
  run (Seq r1 r2) s caps k
  = run r1 s caps (λ rest caps', run r2 rest caps' k).
Proof. reflexivity. Qed.

Lemma length_append s t :
  String.length (s +:+ t) = String.length s + String.length t.
Proof. induction s as [|c s IH]; [done|]. rewrite append_cons. simpl. lia. Qed.

Lemma substring_append s t :
  String.substring 0 (String.length s) (s +:+ t) = s.
Proof.
  induction s as [|c s IH]; [by destruct t|].
  rewrite append_cons. simpl. by rewrite IH.
Qed.

Lemma more_inv {R} greedy class s (k : string → option R) r :
  more greedy class s k = Some r →
  ∃ pre rest,
    s = pre +:+ rest ∧ Forall (λ c, class c = true) (chars pre)
    ∧ k rest = Some r.
Proof.
  induction s as [|c s IH]; simpl.
  - intros H. by exists EmptyString, EmptyString.
  - assert (k (String c s) = Some r →
            ∃ pre rest, String c s = pre +:+ rest
              ∧ Forall (λ c, class c = true) (chars pre) ∧ k rest = Some r)
      as Hstop by (intros H; by exists EmptyString, (String c s)).
    destruct (class c) eqn:Hc; [|done].
    assert (more greedy class s k = Some r →
            ∃ pre rest, String c s = pre +:+ rest
              ∧ Forall (λ c, class c = true) (chars pre) ∧ k rest = Some r)
      as Hmore.
    { intros (pre & rest & -> & Hpre & Hk)%IH.
      exists (String c pre), rest. split; [done|]. split; [|done].
      simpl. by constructor. }
    destruct greedy.
    + destruct (more true class s k) eqn:Hm; [|done].
      intros [= <-]. by apply Hmore.
    + destruct (k (String c s)) eqn:Hk; [intros [= <-]; by apply Hstop|].
      done.
Qed.

Lemma run_Lit {R} l s caps (k : string → list string → option R) r :
  run (Lit l) s caps k = Some r → ∃ rest, k rest caps = Some r.
Proof. simpl. destruct (String.prefix l s); [|done]. by eexists. Qed.

Lemma run_Plus {R} greedy class s caps
    (k : string → list string → option R) r :
  run (Plus greedy class) s caps k = Some r →
  ∃ pre rest,
    s = pre +:+ rest ∧ pre ≠ EmptyString
    ∧ Forall (λ c, class c = true) (chars pre) ∧ k rest caps = Some r.
Proof.
  simpl. destruct s as [|c s]; [done|].
  destruct (class c) eqn:Hc; [|done].
  intros (pre & rest & -> & Hpre & Hk)%more_inv.
  exists (String c pre), rest. split_and!; [done|done| |done].
  simpl. by constructor.
Qed.

Lemma run_Group_Plus {R} greedy class s caps
    (k : string → list string → option R) r :
  run (Group (Plus greedy class)) s caps k = Some r →
  ∃ pre rest,
    s = pre +:+ rest ∧ pre ≠ EmptyString
    ∧ Forall (λ c, class c = true) (chars pre)
    ∧ k rest (pre :: caps) = Some r.
Proof.
  change (run (Group (Plus greedy class)) s caps k)
    with (run (Plus greedy class) s caps (λ rest caps',
            k rest (String.substring 0
                      (String.length s - String.length rest) s :: caps'))).
  intros (pre & rest & -> & Hne & Hpre & Hk)%run_Plus.
  exists pre, rest. split_and!; [done..|].
  rewrite length_append in Hk.
  replace (String.length pre + String.length rest - String.length rest)
    with (String.length pre) in Hk by lia.
  by rewrite substring_append in Hk.
Qed.

Lemma FindStringSubmatch_inv r s caps :
  FindStringSubmatch r s = Some caps → ∃ s', matchHere r s' = Some caps.
Proof.
  induction s as [|c s IH]; simpl.
  - destruct (matchHere r EmptyString) eqn:H; [|done].
    intros [= <-]. by eexists.
  - destruct (matchHere r (String c s)) eqn:H; [|done].
    intros [= <-]. by eexists.
Qed.

(** What [reElement] finds: two groups, the first a word name. *)
Lemma reElement_groups s caps :
  FindStringSubmatch reElement s = Some caps →
  ∃ name content,
    caps = [name; content] ∧ wordName name ∧ content ≠ EmptyString.
Proof.
  intros [s' H]%FindStringSubmatch_inv.
  unfold matchHere, reElement in H.
  rewrite run_Seq in H. apply run_Lit in H as [s1 H].
  rewrite run_Seq in H. apply run_Plus in H as (_ & s2 & _ & _ & _ & H).
  rewrite run_Seq in H.
  apply run_Group_Plus in H as (name & s3 & _ & Hname & Hword & H).
  rewrite run_Seq in H. apply run_Plus in H as (_ & s4 & _ & _ & _ & H).
  rewrite run_Seq in H.
  apply run_Group_Plus in H as (content & s5 & _ & Hcontent & _ & H).
  apply run_Lit in H as [s6 [= <-]].
  by exists name, content.
Qed.

(** What [reEntity] finds: two groups, the first a name of [\w]
    characters. *)
Lemma reEntity_groups s caps :
  FindStringSubmatch reEntity s = Some caps →
  ∃ name value,
    caps = [name; value] ∧ name ≠ EmptyString
    ∧ Forall (λ c, class_w c = true) (chars name) ∧ value ≠ EmptyString.
Proof.
  intros [s' H]%FindStringSubmatch_inv.
  unfold matchHere, reEntity in H.
  rewrite run_Seq in H. apply run_Lit in H as [s1 H].
  rewrite run_Seq in H. apply run_Plus in H as (_ & s2 & _ & _ & _ & H).
  rewrite run_Seq in H. apply run_Lit in H as [s3 H].
  rewrite run_Seq in H. apply run_Plus in H as (_ & s4 & _ & _ & _ & H).
  rewrite run_Seq in H.
  apply run_Group_Plus in H as (name & s5 & _ & Hname & Hword & H).
  rewrite run_Seq in H. apply run_Plus in H as (_ & s6 & _ & _ & _ & H).
  rewrite run_Seq in H. apply run_Lit in H as [s7 H].
  rewrite run_Seq in H.
  apply run_Group_Plus in H as (value & s8 & _ & Hvalue & _ & H).
  apply run_Lit in H as [s9 [= <-]].
  by exists name, value.
Qed.

Lemma declaredElement_wordName decl name content :
  declaredElement decl = Some (name, content) → wordName name.
Proof.
  unfold declaredElement.
  destruct (HasPrefix _ "<!ENTITY"); [done|].
  destruct (HasPrefix _ "<!ELEMENT"); [|done].
  destruct (FindStringSubmatch reElement (TrimSpace decl)) as [caps|] eqn:H;
    [|done].
  apply reElement_groups in H as (n & c & -> & Hn & _).
  by intros [= <- _].
Qed.

(** X8.  Every element name in the result of [ParseFile] is a word: it is
    not empty and has only the characters [0-9A-Za-z_-], so no white space,
    quote or angle bracket. *)
Theorem parsed_names_are_words (range : MapRange) (lines : list string)
    (result : ParseResult) (name : string) :
  is_range range →
  ParseFile range NewDTDParser (Opened lines None) = Ok result →
  name ∈ Order result →
  wordName name.
Proof.
  intros Hrange. rewrite (ParseFile_Ok range lines Hrange). intros [= <-].
  simpl. intros Hin.
  apply (order_elements _ (wellFormed_scanLines lines)) in Hin.
  rewrite scanLines_completeLines, elements_foldl in Hin.
  destruct Hin as [[e He]|(decl & content & _ & Hdecl)].
  - change (elements NewDTDParser) with (∅ : gmap string DTDElement) in He.
    by rewrite lookup_empty in He.
  - by eapply declaredElement_wordName.
Qed.

Lemma parsed_names_are_words_witness :
  let lines := ["<!ELEMENT first-name (#PCDATA)>"] in
  let result :=
    {| Elements :=
         {[ "first-name" := mkElement "first-name" "(#PCDATA)" [] ]};
       Order := ["first-name"] |} in
  is_range map_to_list
  ∧ ParseFile map_to_list NewDTDParser (Opened lines None) = Ok result
  ∧ "first-name" ∈ Order result
  ∧ wordName "first-name".
Proof.
  intros lines result.
  assert (is_range map_to_list) as H1 by (intros m; reflexivity).
  assert (ParseFile map_to_list NewDTDParser (Opened lines None) = Ok result)
    as H2 by (by vm_compute).
  assert ("first-name" ∈ Order result) as H3 by (by apply list_elem_of_singleton).
  split; [exact H1|]. split; [exact H2|]. split; [exact H3|].
  exact (parsed_names_are_words map_to_list lines result "first-name"
           H1 H2 H3).
Defined.

(** * More of the generator *)

(** ** Identifiers *)

Lemma chars_append s t : chars (s +:+ t) = chars s ++ chars t.
Proof.
  induction s as [|c s IH]; [done|]. rewrite append_cons. simpl.
  by rewrite <- IH.
Qed.

Lemma str_nil l : str l = EmptyString → l = [].
Proof. by destruct l. Qed.

Lemma flush_fields (P : ascii → Prop) cur :
  Forall P cur →
  Forall (λ field, field ≠ EmptyString ∧ Forall P (chars field)) (flush cur).
Proof.
  intros Hcur. destruct cur as [|c cur]; [constructor|].
  apply Forall_singleton. split.
  - intros H%str_nil. apply (f_equal (@length ascii)) in H.
    rewrite length_rev in H. done.
  - rewrite chars_str. apply Forall_forall. intros x Hx%list_elem_of_In.
    apply in_rev in Hx. apply list_elem_of_In in Hx.
    by eapply Forall_forall in Hcur.
Qed.

(** The fields of [FieldsFunc]: none is empty, none has a separator. *)
Lemma FieldsFunc_fields s f :
  Forall (λ field,
            field ≠ EmptyString ∧ Forall (λ c, f c = false) (chars field))
         (FieldsFunc s f).
Proof.
  unfold FieldsFunc.
  assert (Forall (λ c, f c = false) (@nil ascii)) as Hcur by constructor.
  revert Hcur. generalize (@nil ascii) as cur.
  induction (chars s) as [|c l IH]; intros cur Hcur; simpl.
  - by apply flush_fields.
  - destruct (f c) eqn:Hc.
    + apply Forall_app. split; [by apply flush_fields|].
      apply IH. constructor.
    + apply IH. by constructor.
Qed.

(** ** Runes on examples *)

(** U+00E9, U+20AC and U+1F600; a surrogate and a negative number are
    written as U+FFFD. *)
Example encode_examples :
  (encode 0xE9 = [0xC3; 0xA9]
   ∧ encode 0x20AC = [0xE2; 0x82; 0xAC]
   ∧ encode 0x1F600 = [0xF0; 0x9F; 0x98; 0x80]
   ∧ encode 0xD800 = [0xEF; 0xBF; 0xBD]
   ∧ encode (-1) = [0xEF; 0xBF; 0xBD])%Z.
Proof. by vm_compute. Qed.

(** The runes of U+00E9, U+20AC, the byte 255, the overlong sequence
    192 128 and [a]: the bytes that are no rune are read one by one. *)
Example runes_example :
  runes (str (toByte <$> [0xC3; 0xA9; 0xE2; 0x82; 0xAC; 0xFF; 0xC0; 0x80;
                          0x61]%Z))
  = [0xE9; 0x20AC; RuneError; RuneError; RuneError; 0x61]%Z.
Proof. by vm_compute. Qed.

(** [strings.Title] begins a word after the no-break space U+00A0, which is
    white space and no letter, and takes the title case of U+00E9 from the
    tables. *)
Example Title_example :
  let U := latin1 in
  Title (str (toByte <$> [0x61; 0xC2; 0xA0; 0xC3; 0xA9; 0x62; 0x20; 0x63]%Z))
  = str (toByte <$> [0x41; 0xC2; 0xA0; 0xC3; 0x89; 0x62; 0x20; 0x43]%Z).
Proof. by vm_compute. Qed.

(** With tables that give [S] for the upper case of the long s U+017F, as
    those of Unicode do, [idref] followed by a long s is the type
    [IDREFS]. *)
Example getGoType_long_s :
  let U : UnicodeTables :=
    {| toUpperCase := λ r, if (r =? 0x17F)%Z then 0x53%Z else r;
       toTitleCase := λ r, if (r =? 0x17F)%Z then 0x53%Z else r;
       isLetter := λ r, (r =? 0x17F)%Z;
       isDigit := λ _, false |} in
  getGoType ("idref" +:+ str (toByte <$> [0xC5; 0xBF]%Z)) = "[]string"
  ∧ getGoType "idrefs" = "[]string"
  ∧ getGoType "idref" = "string".
Proof. by vm_compute. Qed.

(** ** Runes: decoding and encoding keep a word free of [-] and [_] *)

Local Open Scope Z_scope.

Lemma land_le a b : 0 ≤ a → Z.land a b ≤ a.
Proof.
  intros Ha.
  pose proof (Z.lor_ldiff_and a b) as H.
  assert (Z.land (Z.ldiff a b) (Z.land a b) = 0) as H0.
  { apply Z.bits_inj'. intros n Hn.
    rewrite !Z.land_spec, Z.ldiff_spec, Z.bits_0.
    destruct (Z.testbit a n), (Z.testbit b n); done. }
  apply Z.add_nocarry_lor in H0. rewrite H in H0.
  assert (0 ≤ Z.ldiff a b) by (apply Z.ldiff_nonneg; lia).
  lia.
Qed.

Lemma lor_bounds a b :
  0 ≤ a → 0 ≤ b → a ≤ Z.lor a b ∧ b ≤ Z.lor a b ∧ Z.lor a b ≤ a + b.
Proof.
  intros Ha Hb. pose proof (Z.add_lor_land a b).
  pose proof (land_le a b Ha). pose proof (land_le b a Hb).
  rewrite (Z.land_comm b a) in *.
  assert (0 ≤ Z.land a b) by (apply Z.land_nonneg; lia). lia.
Qed.

Lemma byteOf_range c : 0 ≤ byteOf c < 256.
Proof.
  unfold byteOf, code. pose proof (N_ascii_bounded c). lia.
Qed.

Lemma byteAt_range l i : 0 ≤ byteAt l i < 256.
Proof. apply byteOf_range. Qed.

(** [x & mask] for the masks of [utf8] *)
Lemma land_mask x n : 0 ≤ n → Z.land x (Z.ones n) = x mod 2 ^ n.
Proof. apply Z.land_ones. Qed.

Ltac masks :=
  change 0x3F with (Z.ones 6); change 0x1F with (Z.ones 5);
  change 0x0F with (Z.ones 4); change 0x07 with (Z.ones 3);
  rewrite ?land_mask by lia; rewrite ?Z.shiftl_mul_pow2 by lia;
  change (2 ^ 3) with 8; change (2 ^ 4) with 16; change (2 ^ 5) with 32;
  change (2 ^ 6) with 64; change (2 ^ 12) with 4096;
  change (2 ^ 18) with 262144.

Ltac modlia := Z.div_mod_to_equations; lia.

Ltac lors :=
  repeat match goal with
  | |- context [Z.lor ?a ?b] =>
      let H := fresh in
      assert (a ≤ Z.lor a b ∧ b ≤ Z.lor a b ∧ Z.lor a b ≤ a + b) as H
        by (apply lor_bounds; modlia);
      generalize dependent (Z.lor a b); intros
  end.

Ltac branches :=
  repeat match goal with
  | |- context [if (?a <? ?b)%Z then _ else _] => destruct (Z.ltb_spec a b)
  | |- context [if (?a <=? ?b)%Z then _ else _] => destruct (Z.leb_spec a b)
  | |- context [if (?a =? ?b)%Z then _ else _] => destruct (Z.eqb_spec a b)
  | |- context [if (?a <? ?b)%nat then _ else _] =>
      first [ let v := eval cbv in (a <? b)%nat in
              lazymatch v with true => idtac | false => idtac end;
              change (a <? b)%nat with v; cbv iota
            | destruct (a <? b)%nat ]
  | |- context [if (?a <=? ?b)%nat then _ else _] =>
      let v := eval cbv in (a <=? b)%nat in change (a <=? b)%nat with v; cbv iota
  | |- context [if (?a <? ?b)%Z || ?c then _ else _] =>
      destruct (Z.ltb_spec a b); simpl orb
  | |- context [if (?a <=? ?b)%Z && ?c then _ else _] =>
      destruct (Z.leb_spec a b); simpl andb
  end.

Lemma DecodeRune_range l :
  0 ≤ (DecodeRune l).1 ≤ MaxRune
  ∧ ((DecodeRune l).1 < 0x80 → ∃ c l', l = c :: l' ∧ (DecodeRune l).1 = byteOf c).
Proof.
  destruct l as [|c0 l]; [by vm_compute|].
  unfold DecodeRune.
  pose proof (byteOf_range c0) as H0. set (s0 := byteOf c0) in *.
  pose proof (byteAt_range (c0 :: l) 1) as H1. set (s1 := byteAt (c0 :: l) 1) in *.
  pose proof (byteAt_range (c0 :: l) 2) as H2. set (s2 := byteAt (c0 :: l) 2) in *.
  pose proof (byteAt_range (c0 :: l) 3) as H3. set (s3 := byteAt (c0 :: l) 3) in *.
  unfold firstTable, MaxRune, RuneError.
  branches; simpl fst;
  try (split; [lia|]; intros; try lia; by eexists _, _);
  masks; lors; (split; [modlia|intros; modlia]).
Qed.

Lemma runesAux_range l skip :
  Forall (λ r, 0 ≤ r ≤ MaxRune ∧ (r < 0x80 → ∃ c, c ∈ l ∧ r = byteOf c))
         (runesAux l skip).
Proof.
  revert skip. induction l as [|c l IH]; intros skip; [constructor|].
  assert (∀ k, Forall (λ r, 0 ≤ r ≤ MaxRune
                            ∧ (r < 0x80 → ∃ c', c' ∈ c :: l ∧ r = byteOf c'))
                      (runesAux l k)) as IH'.
  { intros k. eapply Forall_impl; [apply IH|]. intros r [Hr Hc].
    split; [done|]. intros [c' [Hc' ->]]%Hc. exists c'. split; [|done].
    by apply list_elem_of_further. }
  cbn [runesAux]. destruct skip as [|k]; [|apply IH'].
  pose proof (DecodeRune_range (c :: l)) as [Hr Hc].
  destruct (DecodeRune (c :: l)) as [r width]. cbn [fst] in Hr, Hc.
  constructor; [|apply IH'].
  split; [done|]. intros (c' & l' & Heq & ->)%Hc. exists c'.
  injection Heq as <- <-. split; [apply list_elem_of_here|done].
Qed.

Lemma byteOf_toByte z : 0 ≤ z < 256 → byteOf (toByte z) = z.
Proof.
  intros Hz. unfold byteOf, toByte, code, low8.
  rewrite N_ascii_embedding; rewrite Z.mod_small by lia; lia.
Qed.

Lemma encode_bytes r :
  0 ≤ r ≤ MaxRune →
  Forall (λ z, 0 ≤ z < 256 ∧ (z < 128 → z = r)) (encode r).
Proof.
  unfold MaxRune. intros Hr. unfold encode, low8, MaxRune, RuneError.
  rewrite (Z.mod_small r (2 ^ 32)) by lia.
  branches; repeat (apply Forall_cons; split); try apply Forall_nil;
    rewrite ?Z.shiftr_div_pow2 by lia;
    change (2 ^ 6) with 64; change (2 ^ 12) with 4096;
    change (2 ^ 18) with 262144;
    change 0x3F with (Z.ones 6); rewrite ?land_mask by lia;
    change (2 ^ 6) with 64;
    try (lors; modlia).
  all: try (vm_compute; split; [done|]; intros; done).
Qed.

(** ** White space: bytes and runes *)

Lemma lor_add a b n :
  0 ≤ n → 0 ≤ b < 2 ^ n → Z.lor (a * 2 ^ n) b = a * 2 ^ n + b.
Proof.
  intros Hn Hb. symmetry. apply Z.add_nocarry_lor.
  apply Z.bits_inj'. intros k Hk. rewrite Z.land_spec, Z.bits_0.
  destruct (Z.lt_ge_cases k n) as [Hlt|Hge].
  - by rewrite Z.mul_pow2_bits_low.
  - destruct (Z.eq_dec b 0) as [->|Hb0]; [by rewrite Z.bits_0, andb_false_r|].
    rewrite (Z.bits_above_log2 b k), andb_false_r; [done|lia|].
    apply Z.log2_lt_pow2; [lia|].
    apply Z.lt_le_trans with (2 ^ n); [lia|].
    apply Z.pow_le_mono_r; lia.
Qed.

(** [x | b] when [x] has no bit below [n] and [b] none from [n] on *)
Lemma lor_low x b n :
  0 ≤ n → 0 ≤ b < 2 ^ n → x mod 2 ^ n = 0 → Z.lor x b = x + b.
Proof.
  intros Hn Hb Hx.
  assert (x = x / 2 ^ n * 2 ^ n) as Hdiv.
  { pose proof (Z.div_mod x (2 ^ n)). lia. }
  rewrite Hdiv at 1. rewrite lor_add by done. lia.
Qed.

Ltac sums :=
  repeat match goal with
  | |- context [Z.lor ?x ?b] =>
      first [ rewrite (lor_low x b 6) by (change (2 ^ 6) with 64; modlia)
            | rewrite (lor_low x b 12) by (change (2 ^ 12) with 4096; modlia)
            | rewrite (lor_low x b 18)
                by (change (2 ^ 18) with 262144; modlia) ]
  end.

Ltac bools :=
  repeat (match goal with
  | |- context [(?a <? ?b)%Z] =>
      destruct (Z.ltb_spec a b); try (exfalso; modlia)
  | |- context [(?a <=? ?b)%Z] =>
      destruct (Z.leb_spec a b); try (exfalso; modlia)
  | |- context [(?a =? ?b)%Z] =>
      destruct (Z.eqb_spec a b); try (exfalso; modlia)
  | |- context [(?a =? ?b)%N] =>
      destruct (N.eqb_spec a b); try (exfalso; modlia)
  | |- context [(?a <=? ?b)%N] =>
      destruct (N.leb_spec a b); try (exfalso; modlia)
  end; cbn [andb orb negb fst snd]).

Ltac decoded :=
  unfold firstTable, RuneError; branches; cbn [fst snd];
  unfold IsSpace, MaxLatin1; masks; sums; bools; try done.

(** The white space of [TrimSpace] and [Fields] is that of
    [unicode.IsSpace]: wherever the bytes are read from, [spaceWidth] is
    the width of the rune they start with when that rune is white space,
    and [0] when it is not. *)
Lemma spaceWidth_IsSpace l :
  spaceWidth l
  = if IsSpace (DecodeRune l).1 then (DecodeRune l).2 else 0%nat.
Proof.
  destruct l as [|c0 l]; [done|].
  unfold spaceWidth, DecodeRune, in_range, byteAt.
  pose proof (byteOf_range c0) as H0.
  assert (code c0 = Z.to_N (byteOf c0)) as -> by (unfold byteOf; lia).
  set (s0 := byteOf c0) in *. clearbody s0.
  destruct l as [|c1 l].
  { cbn [length nth]. decoded. }
  pose proof (byteOf_range c1) as H1.
  assert (code c1 = Z.to_N (byteOf c1)) as -> by (unfold byteOf; lia).
  cbn [nth]. set (s1 := byteOf c1) in *.
  clearbody s1.
  destruct l as [|c2 l].
  { cbn [length nth]. decoded. }
  pose proof (byteOf_range c2) as H2.
  assert (code c2 = Z.to_N (byteOf c2)) as -> by (unfold byteOf; lia).
  cbn [nth]. set (s2 := byteOf c2) in *. clearbody s2.
  pose proof (byteOf_range (nth 0 l zero)) as H3.
  set (s3 := byteOf (nth 0 l zero)) in *. clearbody s3.
  decoded.
Qed.

(** ** Words *)

Lemma notSeparator_byte c :
  isDashOrUnderscore c = false ↔ byteOf c ≠ 0x2D ∧ byteOf c ≠ 0x5F.
Proof.
  unfold isDashOrUnderscore, byteOf. rewrite orb_false_iff, !N.eqb_neq. lia.
Qed.

Lemma runesAux_word l skip :
  Forall (λ c, isDashOrUnderscore c = false) l →
  Forall wordRune (runesAux l skip).
Proof.
  intros Hl. eapply Forall_impl; [apply runesAux_range|].
  intros r [Hr Hc]. split; [done|].
  destruct (decide (r < 0x80)) as [Hlow|]; [|lia].
  destruct (Hc Hlow) as (c & Hin & ->).
  eapply Forall_forall in Hl; [|exact Hin]. by apply notSeparator_byte in Hl.
Qed.

Lemma EncodeRune_word r :
  wordRune r → Forall (λ c, isDashOrUnderscore c = false) (EncodeRune r).
Proof.
  intros (Hr & H1 & H2). unfold EncodeRune. apply Forall_fmap.
  eapply Forall_impl; [by apply encode_bytes|].
  intros z [Hz Hlow]. simpl. apply notSeparator_byte.
  rewrite byteOf_toByte by done. lia.
Qed.

Lemma writeRune_word r :
  wordRune r → Forall (λ c, isDashOrUnderscore c = false) (writeRune r).
Proof.
  intros Hr. unfold writeRune. destruct (0 <=? r); [|constructor].
  by apply EncodeRune_word.
Qed.

Lemma ToUpperRune_word {U : UnicodeTables} r :
  properCase toUpperCase → wordRune r → wordRune (ToUpperRune r).
Proof.
  intros Hcase (Hr & H1 & H2). unfold ToUpperRune, MaxASCII, MaxRune in *.
  branches; unfold wordRune, MaxRune; try lia.
  apply Hcase. unfold MaxASCII, MaxRune. lia.
Qed.

Lemma ToTitleRune_word {U : UnicodeTables} r :
  properCase toTitleCase → wordRune r → wordRune (ToTitleRune r).
Proof.
  intros Hcase (Hr & H1 & H2). unfold ToTitleRune, MaxASCII, MaxRune in *.
  branches; unfold wordRune, MaxRune; try lia.
  apply Hcase. unfold MaxASCII, MaxRune. lia.
Qed.

Lemma titleAux_word {U : UnicodeTables} prev l :
  properCase toTitleCase →
  Forall wordRune l → Forall wordRune (titleAux prev l).
Proof.
  intros Hcase. revert prev.
  induction l as [|r l IH]; intros prev H; [constructor|].
  apply Forall_cons in H as [Hr H]. cbn [titleAux].
  constructor; [|by apply IH].
  destruct (isSeparator prev); [by apply ToTitleRune_word|done].
Qed.

Lemma upperFirst_word {U : UnicodeTables} word :
  properCase toUpperCase →
  Forall (λ c, isDashOrUnderscore c = false) (chars word) →
  Forall (λ c, isDashOrUnderscore c = false) (chars (upperFirst word)).
Proof.
  intros Hcase Hword. unfold upperFirst, runes.
  pose proof (runesAux_word (chars word) 0 Hword) as Hrunes.
  destruct (runesAux (chars word) 0) as [|r rest]; [constructor|].
  apply Forall_cons in Hrunes as [Hr Hrest].
  unfold stringOfRunes. rewrite chars_str.
  apply Forall_flat_map. constructor.
  - by apply EncodeRune_word, ToUpperRune_word.
  - eapply Forall_impl; [exact Hrest|]. apply EncodeRune_word.
Qed.

Lemma Title_word {U : UnicodeTables} word :
  properCase toTitleCase →
  Forall (λ c, isDashOrUnderscore c = false) (chars word) →
  Forall (λ c, isDashOrUnderscore c = false) (chars (Title word)).
Proof.
  intros Hcase Hword. unfold Title, runes. rewrite chars_str.
  apply Forall_flat_map.
  eapply Forall_impl; [|apply writeRune_word].
  by apply titleAux_word, runesAux_word.
Qed.
Local Close Scope Z_scope.


Lemma writeAll_chars (P : ascii → Prop) (words : list string) :
  Forall (λ word, Forall P (chars word)) words →
  Forall P (chars (writeAll words)).
Proof.
  induction 1 as [|word words Hword _ IH]; [constructor|].
  simpl. rewrite chars_append. by apply Forall_app.
Qed.

Lemma latin1_properCase :
  properCase (@toUpperCase latin1) ∧ properCase (@toTitleCase latin1).
Proof.
  split; intros r Hr; unfold MaxASCII, MaxRune in *; cbn;
    destruct (Z.leb_spec 224 r), (Z.leb_spec r 254), (Z.eqb_spec r 247),
      (Z.eqb_spec r 255), (Z.eqb_spec r 181); cbn; lia.
Qed.

(** X9.  Whatever the name, and for any case tables that give code points
    other than [-] and [_], the names [toGoFieldName] and [toGoStructName]
    return are never empty and never have a [-] or a [_] among their
    bytes. *)
Theorem identifiers_without_separators {U : UnicodeTables} (name : string) :
  properCase toUpperCase → properCase toTitleCase →
  (toGoFieldName name ≠ EmptyString
   ∧ Forall (λ c, isDashOrUnderscore c = false) (chars (toGoFieldName name)))
  ∧ (toGoStructName name ≠ EmptyString
     ∧ Forall (λ c, isDashOrUnderscore c = false)
              (chars (toGoStructName name))).
Proof.
  intros Hupper Htitle.
  pose proof (FieldsFunc_fields name isDashOrUnderscore) as Hwords.
  split.
  - unfold toGoFieldName.
    destruct (writeAll _ =? EmptyString) eqn:He.
    + split; [done|]. repeat constructor.
    + apply eqb_false in He. split; [done|].
      apply writeAll_chars, Forall_fmap.
      eapply Forall_impl; [exact Hwords|]. intros word [_ Hword].
      unfold compose. cbv beta.
      destruct (0 <? String.length word)%nat; [|constructor].
      by apply upperFirst_word.
  - unfold toGoStructName.
    destruct (writeAll _ =? EmptyString) eqn:He.
    + split; [done|]. repeat constructor.
    + apply eqb_false in He. split; [done|].
      apply writeAll_chars, Forall_fmap.
      eapply Forall_impl; [exact Hwords|]. intros word [_ Hword].
      unfold compose. cbv beta.
      destruct (0 <? String.length word)%nat; [|constructor].
      by apply Title_word.
Qed.

(** The name [e'lan-vital_x] with U+00E9 for its first letter, and the
    byte 255, which is no rune, after it. *)
Lemma identifiers_without_separators_witness :
  let U := latin1 in
  let name := String "195" (String "169" (String "255" "lan-vital_x")) in
  (properCase toUpperCase ∧ properCase toTitleCase)
  ∧ ((toGoFieldName name ≠ EmptyString
      ∧ Forall (λ c, isDashOrUnderscore c = false)
               (chars (toGoFieldName name)))
     ∧ (toGoStructName name ≠ EmptyString
        ∧ Forall (λ c, isDashOrUnderscore c = false)
                 (chars (toGoStructName name))))
  ∧ toGoFieldName name
    = String "195" (String "137"
        (String "239" (String "191" (String "189" "lanVitalX"))))
  ∧ toGoStructName name = toGoFieldName name.
Proof.
  intros U name. pose proof latin1_properCase as [H1 H2].
  split; [by split|].
  split; [exact (identifiers_without_separators name H1 H2)|].
  split; by vm_compute.
Defined.

(** ** Child names *)

Lemma trimFront_Forall (P : ascii → Prop) width l skip :
  Forall P l → Forall P (trimFront width l skip).
Proof.
  revert skip. induction l as [|c l IH]; intros skip Hl; [done|].
  apply Forall_cons in Hl as Hcl. destruct Hcl as [Hc Hl']. simpl.
  destruct skip; [|by apply IH].
  destruct (width (c :: l)); [done|by apply IH].
Qed.

Lemma rev_Forall (P : ascii → Prop) l : Forall P l → Forall P (rev l).
Proof.
  intros Hl. apply Forall_forall. intros x Hx%list_elem_of_In.
  apply in_rev in Hx. apply list_elem_of_In in Hx.
  by eapply Forall_forall in Hl.
Qed.

(** [TrimSpace] only removes characters. *)
Lemma TrimSpace_Forall (P : ascii → Prop) s :
  Forall P (chars s) → Forall P (chars (TrimSpace s)).
Proof.
  intros Hs. unfold TrimSpace, trimRightSpace, trimLeftSpace.
  rewrite chars_str.
  by apply rev_Forall, trimFront_Forall, rev_Forall, trimFront_Forall.
Qed.

Lemma RemoveAll_Forall class s :
  Forall (λ c, class c = false) (chars (RemoveAll class s)).
Proof.
  unfold RemoveAll. rewrite chars_str. apply Forall_forall.
  by intros c [Hc _]%list_elem_of_filter.
Qed.

Lemma namesOfPart_clean part name :
  name ∈ namesOfPart part →
  name ≠ EmptyString
  ∧ Forall (λ c, isOccurrenceOrPunct c = false) (chars name).
Proof.
  unfold namesOfPart.
  match goal with |- context [if ?b then _ else _] => destruct b end;
    [|by intros ?%elem_of_nil].
  intros (subPart & _ & Hname)%list_elem_of_In%in_flat_map.
  apply list_elem_of_In in Hname.
  destruct (negb (_ =? EmptyString) && _) eqn:Hcond;
    [|by apply elem_of_nil in Hname].
  apply list_elem_of_singleton in Hname as ->.
  apply andb_prop in Hcond as [Hne%negb_true_iff%eqb_false _].
  split; [done|]. apply TrimSpace_Forall, RemoveAll_Forall.
Qed.

(** X10.  The child names [parseContentModel] takes from a content model
    are never empty and have no occurrence indicator, parenthesis or
    comma. *)
Theorem child_names_are_clean (content name : string) :
  name ∈ elementNamesOf content →
  name ≠ EmptyString
  ∧ Forall (λ c, isOccurrenceOrPunct c = false) (chars name).
Proof.
  unfold elementNamesOf.
  intros (part & _ & Hname)%list_elem_of_In%in_flat_map.
  apply list_elem_of_In in Hname. by eapply namesOfPart_clean.
Qed.

Lemma child_names_are_clean_witness :
  "chapter" ∈ elementNamesOf "(title, (chapter+ | appendix?)*)"
  ∧ "chapter" ≠ EmptyString
  ∧ Forall (λ c, isOccurrenceOrPunct c = false) (chars "chapter").
Proof.
  assert ("chapter" ∈ elementNamesOf "(title, (chapter+ | appendix?)*)") as H.
  { apply list_elem_of_In. vm_compute. tauto. }
  split; [exact H|].
  exact (child_names_are_clean "(title, (chapter+ | appendix?)*)" "chapter" H).
Defined.

(** ** One field for each child *)

Lemma firstOccurrences_elem_of l x : x ∈ firstOccurrences l ↔ x ∈ l.
Proof.
  induction l as [|y l IH]; [done|]. simpl.
  rewrite !elem_of_cons, list_elem_of_filter, IH.
  destruct (decide (x = y)); tauto.
Qed.

Lemma firstOccurrences_NoDup l : NoDup (firstOccurrences l).
Proof.
  induction l as [|y l IH]; simpl; [constructor|].
  constructor.
  - by intros [? _]%list_elem_of_filter.
  - by apply NoDup_filter.
Qed.

(** X11.  For a content model that is none of the special ones, every
    child name of the model has its field among the fields, and there are
    as many fields as different child names. *)
Theorem one_field_for_each_child {U : UnicodeTables} (g : StructGenerator) (content : string) :
  content ≠ "EMPTY" → content ≠ "ANY" →
  Contains content "#PCDATA" = false → Contains content "%" = false →
  (∀ name, name ∈ elementNamesOf content →
           childField g (TrimSpace content) name ∈ parseContentModel g content)
  ∧ length (parseContentModel g content)
    = size (list_to_set (elementNamesOf content) : gset string).
Proof.
  intros H1 H2 H3 H4. rewrite parseContentModel_children by done. split.
  - intros name Hname. apply list_elem_of_fmap_2.
    by apply firstOccurrences_elem_of.
  - rewrite length_fmap.
    rewrite <- (size_list_to_set (C:=gset string))
      by apply firstOccurrences_NoDup.
    f_equal. apply set_eq. intros x.
    by rewrite !elem_of_list_to_set, firstOccurrences_elem_of.
Qed.

Lemma one_field_for_each_child_witness :
  let U := latin1 in
  let content := "(title, author+, title?)" in
  let g := NewStructGenerator "main" ∅ [] in
  (content ≠ "EMPTY" ∧ content ≠ "ANY"
   ∧ Contains content "#PCDATA" = false ∧ Contains content "%" = false)
  ∧ (∀ name, name ∈ elementNamesOf content →
             childField g (TrimSpace content) name
             ∈ parseContentModel g content)
  ∧ length (parseContentModel g content)
    = size (list_to_set (elementNamesOf content) : gset string).
Proof.
  intros U.
  intros content g.
  assert (content ≠ "EMPTY") as H1 by done.
  assert (content ≠ "ANY") as H2 by done.
  assert (Contains content "#PCDATA" = false) as H3 by (by vm_compute).
  assert (Contains content "%" = false) as H4 by (by vm_compute).
  split; [done|].
  exact (one_field_for_each_child g content H1 H2 H3 H4).
Defined.

(** ** References to other definitions *)




(** * Declarations over several lines *)

(** X13.  Lines that are not passed over and do not end in [>], followed
    by a line that ends in [>]: when the buffer with these lines, each
    trimmed and followed by a space, has a keyword, the scanning loop hands
    the trimmed buffer to [parseLine] as one declaration and empties the
    buffer. *)
Theorem declaration_over_lines (p : DTDParser) (currentLine : string)
    (pre : list string) (last : string) :
  Forall (λ text, skipped text = false
                  ∧ HasSuffix (TrimSpace text) ">" = false) pre →
  skipped last = false →
  HasSuffix (TrimSpace last) ">" = true →
  let buffer :=
    currentLine
    +:+ writeAll ((λ text, TrimSpace text +:+ " ") <$> (pre ++ [last])) in
  hasKeyword buffer = true →
  foldl scanStep (p, currentLine) (pre ++ [last])
  = (parseLine p (TrimSpace buffer), EmptyString).
Proof.
  intros Hpre Hlast Hends. revert currentLine.
  induction Hpre as [|text pre [Hskip Hopen] _ IH]; intros currentLine; simpl.
  - intros Hkey. unfold skipped in Hlast. rewrite Hlast, Hends.
    rewrite append_nil_r in Hkey |- *. unfold hasKeyword in Hkey.
    by rewrite Hkey.
  - intros Hkey. unfold skipped in Hskip. rewrite Hskip, Hopen.
    cbn [andb].
    rewrite <- (append_assoc currentLine (TrimSpace text +:+ " ")) in Hkey.
    rewrite (IH _ Hkey).
    by rewrite <- (append_assoc currentLine (TrimSpace text +:+ " ")).
Qed.

Lemma declaration_over_lines_witness :
  let pre := ["<!ATTLIST book id ID #REQUIRED"; "   isbn CDATA #IMPLIED"] in
  let last := "   lang CDATA #IMPLIED>" in
  let buffer :=
    EmptyString
    +:+ writeAll ((λ text, TrimSpace text +:+ " ") <$> (pre ++ [last])) in
  Forall (λ text, skipped text = false
                  ∧ HasSuffix (TrimSpace text) ">" = false) pre
  ∧ skipped last = false
  ∧ HasSuffix (TrimSpace last) ">" = true
  ∧ hasKeyword buffer = true
  ∧ foldl scanStep (NewDTDParser, EmptyString) (pre ++ [last])
    = (parseLine NewDTDParser (TrimSpace buffer), EmptyString)
  ∧ TrimSpace buffer
    = "<!ATTLIST book id ID #REQUIRED isbn CDATA #IMPLIED lang CDATA #IMPLIED>".
Proof.
  intros pre last buffer.
  assert (Forall (λ text, skipped text = false
                          ∧ HasSuffix (TrimSpace text) ">" = false) pre) as H1.
  { repeat constructor. }
  assert (skipped last = false) as H2 by (by vm_compute).
  assert (HasSuffix (TrimSpace last) ">" = true) as H3 by (by vm_compute).
  assert (hasKeyword buffer = true) as H4 by (by vm_compute).
  split; [exact H1|]. split; [exact H2|]. split; [exact H3|].
  split; [exact H4|].
  split; [exact (declaration_over_lines NewDTDParser EmptyString pre last
                   H1 H2 H3 H4)|].
  by vm_compute.
Defined.

(** * Entity declarations *)

Lemma prefix_split l s :
  String.prefix l s = true → ∃ rest, s = l +:+ rest.
Proof.
  revert s. induction l as [|c l IH]; intros s; [by exists s|].
  destruct s as [|d s]; [done|]. simpl.
  destruct (ascii_dec c d) as [->|]; [|done].
  intros [rest ->]%IH. by exists rest.
Qed.

Lemma Contains_prefix s x : String.prefix x s = true → Contains s x = true.
Proof. intros H. destruct s; cbn [Contains]; by rewrite H. Qed.

Lemma Contains_append_r s t x :
  Contains t x = true → Contains (s +:+ t) x = true.
Proof.
  intros H. induction s as [|c s IH]; [done|].
  rewrite append_cons. cbn [Contains]. rewrite IH. apply orb_true_r.
Qed.

Lemma FindStringSubmatch_suffix r s caps :
  FindStringSubmatch r s = Some caps →
  ∃ pre s', s = pre +:+ s' ∧ matchHere r s' = Some caps.
Proof.
  induction s as [|c s IH]; simpl.
  - destruct (matchHere r EmptyString) eqn:H; [|done].
    intros [= <-]. by exists EmptyString, EmptyString.
  - destruct (matchHere r (String c s)) eqn:H.
    + intros [= <-]. by exists EmptyString, (String c s).
    + intros (pre & s' & -> & Hs')%IH. by exists (String c pre), s'.
Qed.

Lemma substring_all s : String.substring 0 (String.length s) s = s.
Proof. induction s as [|c s IH]; [done|]. simpl. by rewrite IH. Qed.

Lemma substring_skip l rest n :
  String.substring (String.length l) n (l +:+ rest)
  = String.substring 0 n rest.
Proof.
  induction l as [|c l IH]; [by rewrite append_nil_l|].
  rewrite append_cons. simpl. apply IH.
Qed.

Lemma run_Lit_split {R} l s caps (k : string → list string → option R) r :
  run (Lit l) s caps k = Some r →
  ∃ rest, s = l +:+ rest ∧ k rest caps = Some r.
Proof.
  simpl. destruct (String.prefix l s) eqn:Hl; [|done].
  destruct (prefix_split l s Hl) as [rest ->]. intros Hk.
  exists rest. split; [done|].
  rewrite length_append in Hk.
  replace (String.length l + String.length rest - String.length l)
    with (String.length rest) in Hk by lia.
  by rewrite substring_skip, substring_all in Hk.
Qed.

Lemma reEntity_percent line caps :
  FindStringSubmatch reEntity line = Some caps → Contains line "%" = true.
Proof.
  intros (pre & s' & -> & H)%FindStringSubmatch_suffix.
  unfold matchHere, reEntity in H.
  rewrite run_Seq in H. apply run_Lit_split in H as (s1 & -> & H).
  rewrite run_Seq in H. apply run_Plus in H as (ws & s2 & -> & _ & _ & H).
  rewrite run_Seq in H. apply run_Lit_split in H as (s3 & -> & _).
  do 3 apply Contains_append_r. apply Contains_prefix.
  rewrite append_cons, append_nil_l. simpl. by destruct s3.
Qed.

(** X14.  [parseEntity] stores parameter entities only: a line without a
    [%] leaves the parser as it is; and when a line changes the parser, it
    stores one entity, whose name is not empty and has only the characters
    [0-9A-Za-z_], and whose value is not empty. *)
Theorem entity_declaration_effect (p : DTDParser) (line : string) :
  (if Contains line "%" then True else parseEntity p line = p)
  ∧ (parseEntity p line = p
     ∨ ∃ name value,
         name ≠ EmptyString ∧ Forall (λ c, class_w c = true) (chars name)
         ∧ value ≠ EmptyString
         ∧ parseEntity p line
           = {| elements := elements p; attributes := attributes p;
                elementOrder := elementOrder p;
                entities := <[name := value]> (entities p) |}).
Proof.
  unfold parseEntity.
  destruct (FindStringSubmatch reEntity line) as [caps|] eqn:H.
  - rewrite (reEntity_percent _ _ H). split; [done|].
    apply reEntity_groups in H as (name & value & -> & Hne & Hword & Hvalue).
    right. by exists name, value.
  - split; [by destruct (Contains line "%")|by left].
Qed.

(** * Default values in quotes *)

Lemma dropWhile_keep f c l : f c = false → dropWhile f (c :: l) = c :: l.
Proof. intros H. simpl. by rewrite H. Qed.

Lemma trim_both_ends (f : ascii → bool) (q : ascii) (l : list ascii) :
  f q = true → (∀ c, c ≠ q → f c = false) →
  head l ≠ Some q → head (rev l) ≠ Some q →
  rev (dropWhile f (rev (dropWhile f (q :: l ++ [q])))) = l.
Proof.
  intros Hq Hother Hfirst Hlast.
  assert (dropWhile f (q :: l ++ [q]) = dropWhile f (l ++ [q])) as ->
    by (simpl; by rewrite Hq).
  destruct l as [|c l]; [simpl; by rewrite Hq|].
  assert (f c = false) as Hc.
  { apply Hother. intros ->. by apply Hfirst. }
  rewrite <- app_comm_cons, (dropWhile_keep f c _ Hc), app_comm_cons.
  rewrite rev_app_distr.
  change (rev [q] ++ rev (c :: l)) with (q :: rev (c :: l)).
  assert (dropWhile f (q :: rev (c :: l)) = dropWhile f (rev (c :: l))) as ->
    by (simpl dropWhile at 1; by rewrite Hq).
  destruct (rev (c :: l)) as [|d m] eqn:Hrev.
  { apply (f_equal (@length ascii)) in Hrev. rewrite length_rev in Hrev.
    done. }
  assert (f d = false) as Hd.
  { apply Hother. intros ->. by apply Hlast. }
  rewrite (dropWhile_keep f d m Hd), <- Hrev. apply rev_involutive.
Qed.

Lemma Trim_quoted value :
  head (chars value) ≠ Some dquoteChar →
  head (rev (chars value)) ≠ Some dquoteChar →
  Trim (dquote +:+ value +:+ dquote) dquote = value.
Proof.
  intros Hfirst Hlast. unfold Trim. rewrite !chars_append.
  change (chars dquote) with [dquoteChar].
  change ([dquoteChar] ++ chars value ++ [dquoteChar])
    with (dquoteChar :: chars value ++ [dquoteChar]).
  rewrite trim_both_ends; [apply String.string_of_list_ascii_of_string|..];
    try done.
  intros c Hc. apply bool_decide_eq_false.
  by intros ?%list_elem_of_singleton.
Qed.

Lemma trim_open_end (f : ascii → bool) (q : ascii) (l : list ascii) :
  f q = true → (∀ c, c ≠ q → f c = false) →
  head l ≠ Some q → head (rev l) ≠ Some q →
  rev (dropWhile f (rev (dropWhile f (q :: l)))) = l.
Proof.
  intros Hq Hother Hfirst Hlast.
  assert (dropWhile f (q :: l) = dropWhile f l) as ->
    by (simpl; by rewrite Hq).
  destruct l as [|c l]; [done|].
  assert (f c = false) as Hc.
  { apply Hother. intros ->. by apply Hfirst. }
  rewrite (dropWhile_keep f c _ Hc).
  destruct (rev (c :: l)) as [|d m] eqn:Hrev.
  { apply (f_equal (@length ascii)) in Hrev. rewrite length_rev in Hrev.
    done. }
  assert (f d = false) as Hd.
  { apply Hother. intros ->. by apply Hlast. }
  rewrite (dropWhile_keep f d m Hd), <- Hrev. apply rev_involutive.
Qed.

Lemma Trim_open_quote value :
  head (chars value) ≠ Some dquoteChar →
  head (rev (chars value)) ≠ Some dquoteChar →
  Trim (dquote +:+ value) dquote = value.
Proof.
  intros Hfirst Hlast. unfold Trim. rewrite chars_append.
  change (chars dquote) with [dquoteChar].
  change ([dquoteChar] ++ chars value) with (dquoteChar :: chars value).
  rewrite trim_open_end; [apply String.string_of_list_ascii_of_string|..];
    try done.
  intros c Hc. apply bool_decide_eq_false.
  by intros ?%list_elem_of_singleton.
Qed.

(** The loop of [parseAttributeList] over a plain definition and the
    tokens after it. *)
Lemma attrLoop_plain entities name type defaultSpec rest :
  isReference name = false → Contains type "(" = false →
  attrLoop (length (name :: type :: defaultSpec :: rest)) entities
           (name :: type :: defaultSpec :: rest) 0 []
  = withDefault name type defaultSpec
    :: attrLoop (length rest) entities rest 0 [].
Proof.
  intros Hname Htype.
  pose proof (attrLoop_item entities [name; type; defaultSpec] rest
                [withDefault name type defaultSpec]) as H.
  apply H; [|simpl; lia].
  exact (attrStep_item entities (Plain name type defaultSpec) rest
           (conj Hname Htype)).
Qed.

(** X15.  In an attribute list, a definition [name type "value"] whose
    quoted default is one token gives the attribute the default [value],
    without the quotes.  White space inside the quotes cuts the default:
    the token after the type is then the opening quote and the first word,
    that word alone is the default, and the rest of the quoted text is
    read with the tokens that follow, as the start of the next
    definition. *)
Theorem quoted_default_is_unquoted (entities : gmap string string)
    (line elementName name type value : string) (rest : list string) :
  isReference name = false → Contains type "(" = false →
  head (chars value) ≠ Some dquoteChar →
  head (rev (chars value)) ≠ Some dquoteChar →
  attlistTokens line
  = elementName :: name :: type :: (dquote +:+ value +:+ dquote) :: rest
  ∨ attlistTokens line
    = elementName :: name :: type :: (dquote +:+ value) :: rest →
  attributeList entities line
  = Some (elementName,
          mkAttribute name type value false
          :: attrLoop (length rest) entities rest 0 []).
Proof.
  intros Hname Htype Hfirst Hlast Htokens.
  unfold attributeList. unfold attlistTokens in Htokens.
  destruct Htokens as [-> | ->]; rewrite attrLoop_plain by done;
    do 3 f_equal; unfold withDefault.
  - rewrite Trim_quoted by done. by destruct value.
  - rewrite Trim_open_quote by done. by destruct value.
Qed.

Lemma quoted_default_is_unquoted_witness :
  let line1 := "<!ATTLIST price currency CDATA " +:+ dquote +:+ "USD"
               +:+ dquote +:+ " unit CDATA #IMPLIED>" in
  let line2 := "<!ATTLIST x a CDATA " +:+ dquote +:+ "hello world" +:+ dquote
               +:+ " b CDATA #REQUIRED>" in
  (isReference "currency" = false ∧ Contains "CDATA" "(" = false
   ∧ head (chars "USD") ≠ Some dquoteChar
   ∧ head (rev (chars "USD")) ≠ Some dquoteChar
   ∧ attlistTokens line1
     = ["price"; "currency"; "CDATA"; dquote +:+ "USD" +:+ dquote;
        "unit"; "CDATA"; "#IMPLIED"])
  ∧ attributeList ∅ line1
    = Some ("price",
            mkAttribute "currency" "CDATA" "USD" false
            :: attrLoop 3 ∅ ["unit"; "CDATA"; "#IMPLIED"] 0 [])
  ∧ attributeList ∅ line1
    = Some ("price", [mkAttribute "currency" "CDATA" "USD" false;
                      mkAttribute "unit" "CDATA" EmptyString false])
  ∧ (isReference "a" = false
     ∧ head (chars "hello") ≠ Some dquoteChar
     ∧ head (rev (chars "hello")) ≠ Some dquoteChar
     ∧ attlistTokens line2
       = ["x"; "a"; "CDATA"; dquote +:+ "hello"; "world" +:+ dquote;
          "b"; "CDATA"; "#REQUIRED"])
  ∧ attributeList ∅ line2
    = Some ("x", [mkAttribute "a" "CDATA" "hello" false;
                  mkAttribute ("world" +:+ dquote) "b" "CDATA" false]).
Proof.
  intros line1 line2.
  assert (isReference "currency" = false) as H1 by done.
  assert (Contains "CDATA" "(" = false) as H2 by done.
  assert (head (chars "USD") ≠ Some dquoteChar) as H3 by done.
  assert (head (rev (chars "USD")) ≠ Some dquoteChar) as H4 by done.
  assert (attlistTokens line1
          = ["price"; "currency"; "CDATA"; dquote +:+ "USD" +:+ dquote;
             "unit"; "CDATA"; "#IMPLIED"]) as H5 by (by vm_compute).
  assert (isReference "a" = false) as H6 by done.
  assert (head (chars "hello") ≠ Some dquoteChar) as H7 by done.
  assert (head (rev (chars "hello")) ≠ Some dquoteChar) as H8 by done.
  assert (attlistTokens line2
          = ["x"; "a"; "CDATA"; dquote +:+ "hello"; "world" +:+ dquote;
             "b"; "CDATA"; "#REQUIRED"]) as H9 by (by vm_compute).
  split; [done|].
  split; [exact (quoted_default_is_unquoted ∅ line1 "price" "currency"
                   "CDATA" "USD" ["unit"; "CDATA"; "#IMPLIED"]
                   H1 H2 H3 H4 (or_introl H5))|].
  split; [by vm_compute|]. split; [done|].
  pose proof (quoted_default_is_unquoted ∅ line2 "x" "a" "CDATA" "hello"
                ["world" +:+ dquote; "b"; "CDATA"; "#REQUIRED"]
                H6 H2 H7 H8 (or_intror H9)) as H.
  rewrite H. by vm_compute.
Defined.

(** * Text left in the buffer *)

Lemma str_app l1 l2 : str (l1 ++ l2) = str l1 +:+ str l2.
Proof. induction l1 as [|c l1 IH]; [done|]. simpl. by rewrite IH. Qed.

Lemma str_chars s : str (chars s) = s.
Proof. apply String.string_of_list_ascii_of_string. Qed.

Lemma trimFront_suffix width l skip :
  ∃ pre, l = pre ++ trimFront width l skip.
Proof.
  revert skip. induction l as [|c l IH]; intros skip; [by exists []|].
  simpl. destruct skip as [|k].
  - destruct (width (c :: l)) as [|k]; [by exists []|].
    destruct (IH k) as [pre Hpre]. exists (c :: pre). simpl. by f_equal.
  - destruct (IH k) as [pre Hpre]. exists (c :: pre). simpl. by f_equal.
Qed.

Lemma trimFront_keep width l : width l = 0 → trimFront width l 0 = l.
Proof. intros H. destruct l as [|c l]; [done|]. simpl. by rewrite H. Qed.

(** A string that starts with no white space keeps its start when
    trimmed. *)
Lemma TrimSpace_prefix s :
  spaceWidth (chars s) = 0 → ∃ tail, s = TrimSpace s +:+ tail.
Proof.
  intros Hs. unfold TrimSpace, trimLeftSpace, trimRightSpace.
  rewrite (trimFront_keep _ _ Hs).
  destruct (trimFront_suffix spaceWidthRev (rev (chars s)) 0) as [pre Hpre].
  exists (str (rev pre)). rewrite <- str_app, <- rev_app_distr, <- Hpre.
  by rewrite rev_involutive, str_chars.
Qed.

Lemma spaceWidth_prefix l1 l2 :
  spaceWidth (l1 ++ l2) = 0 → spaceWidth l1 = 0.
Proof.
  destruct l1 as [|c [|d [|e l1]]]; simpl; try done;
    repeat match goal with
           | |- context [if ?b then _ else _] => destruct b
           end; try done.
Qed.

Lemma prefix_append_l kw a b :
  String.prefix kw a = true → String.prefix kw (a +:+ b) = true.
Proof.
  revert a. induction kw as [|k kw IH]; intros a;
    [by destruct (a +:+ b)|].
  destruct a as [|c a]; [done|]. rewrite append_cons. simpl.
  destruct (ascii_dec k c); [apply IH|done].
Qed.

Lemma HasPrefix_TrimSpace s kw :
  spaceWidth (chars s) = 0 →
  HasPrefix (TrimSpace s) kw = true → HasPrefix s kw = true.
Proof.
  intros Hs Hkw. destruct (TrimSpace_prefix s Hs) as [tail Htail].
  rewrite Htail. by apply prefix_append_l.
Qed.

Lemma spaceWidth_TrimSpace s :
  spaceWidth (chars s) = 0 → spaceWidth (chars (TrimSpace s)) = 0.
Proof.
  intros Hs. destruct (TrimSpace_prefix s Hs) as [tail Htail].
  rewrite Htail, chars_append in Hs. by apply spaceWidth_prefix in Hs.
Qed.

(** A keyword without a space that starts a buffer and what follows it
    starts the buffer, when the buffer ends in a space. *)
Lemma prefix_before_space kw junk more :
  " "%char ∉ chars kw →
  String.prefix kw ((junk +:+ " ") +:+ more) = true →
  String.prefix kw (junk +:+ " ") = true.
Proof.
  revert junk. induction kw as [|k kw IH]; intros junk Hkw;
    [by destruct (junk +:+ " ")|].
  simpl in Hkw. apply not_elem_of_cons in Hkw as [Hk Hkw].
  destruct junk as [|c junk].
  - rewrite append_nil_l, !append_cons. simpl.
    destruct (ascii_dec k " "); [by subst|done].
  - rewrite !append_cons. simpl.
    destruct (ascii_dec k c); [by apply IH|done].
Qed.

Lemma spaceWidth_before_space junk more :
  spaceWidth (chars (junk +:+ " ")) = 0 →
  spaceWidth (chars ((junk +:+ " ") +:+ more)) = 0.
Proof.
  rewrite !chars_append. change (chars " ") with [" "%char].
  destruct (chars junk) as [|c [|d [|e l]]]; simpl; try done;
    repeat match goal with
           | |- context [if ?b then _ else _] => destruct b eqn:?
           | |- context [match ?l with [] => _ | _ :: _ => _ end] =>
               destruct l
           end; try done;
    repeat match goal with
           | H : _ && _ = true |- _ => apply andb_prop in H as [? ?]
           end; try done.
Qed.

Lemma HasPrefix_leftover kw junk more :
  " "%char ∉ chars kw →
  spaceWidth (chars (junk +:+ " ")) = 0 →
  HasPrefix (junk +:+ " ") kw = false →
  HasPrefix (TrimSpace (TrimSpace ((junk +:+ " ") +:+ more))) kw = false.
Proof.
  intros Hkw Hwidth Hjunk.
  pose proof (spaceWidth_before_space junk more Hwidth) as Hbuffer.
  destruct (HasPrefix (TrimSpace (TrimSpace _)) kw) eqn:H; [|done].
  apply HasPrefix_TrimSpace in H; [|by apply spaceWidth_TrimSpace].
  apply HasPrefix_TrimSpace in H; [|done].
  apply prefix_before_space in H; [|done].
  unfold HasPrefix in Hjunk. congruence.
Qed.

(** X16.  Text that stays in the buffer costs the next declaration: when
    the buffer holds earlier text that starts with no white space and with
    none of the three keywords, no line changes the parser at its turn,
    not even a line that completes a declaration, which is handed over
    with the earlier text in front of it and dropped. *)
Theorem leftover_text_drops_declaration (p : DTDParser) (junk text : string) :
  let currentLine := junk +:+ " " in
  spaceWidth (chars currentLine) = 0 →
  HasPrefix currentLine "<!ENTITY" = false →
  HasPrefix currentLine "<!ELEMENT" = false →
  HasPrefix currentLine "<!ATTLIST" = false →
  (scanStep (p, currentLine) text).1 = p.
Proof.
  intros currentLine Hwidth H1 H2 H3. unfold scanStep.
  destruct ((TrimSpace text =? EmptyString) || _); [done|].
  match goal with |- context [if ?b then _ else _] => destruct b end;
    [|done].
  simpl. unfold parseLine, currentLine.
  rewrite !(HasPrefix_leftover _ junk (TrimSpace text +:+ " ")); try done.
  all: vm_compute; intros H; repeat (apply elem_of_cons in H as [H|H];
    [discriminate H|]); by apply elem_of_nil in H.
Qed.

Lemma leftover_text_drops_declaration_witness :
  let junk := "end of a comment -->" in
  let currentLine := junk +:+ " " in
  spaceWidth (chars currentLine) = 0
  ∧ HasPrefix currentLine "<!ENTITY" = false
  ∧ HasPrefix currentLine "<!ELEMENT" = false
  ∧ HasPrefix currentLine "<!ATTLIST" = false
  ∧ (scanStep (NewDTDParser, currentLine) "<!ELEMENT a (b)>").1 = NewDTDParser
  ∧ scanStep (NewDTDParser, currentLine) "<!ELEMENT a (b)>"
    = (NewDTDParser, EmptyString).
Proof.
  intros junk currentLine.
  assert (spaceWidth (chars currentLine) = 0) as H0 by (by vm_compute).
  assert (HasPrefix currentLine "<!ENTITY" = false) as H1 by (by vm_compute).
  assert (HasPrefix currentLine "<!ELEMENT" = false) as H2 by (by vm_compute).
  assert (HasPrefix currentLine "<!ATTLIST" = false) as H3 by (by vm_compute).
  split; [exact H0|]. split; [exact H1|]. split; [exact H2|].
  split; [exact H3|].
  split; [exact (leftover_text_drops_declaration NewDTDParser junk
                   "<!ELEMENT a (b)>" H0 H1 H2 H3)|].
  by vm_compute.
Defined.
(** * Names of ASCII bytes *)

Lemma DecodeRune_ascii c l :
  (code c < 128)%N → DecodeRune (c :: l) = (byteOf c, 1).
Proof.
  intros Hc. unfold DecodeRune, firstTable.
  assert (byteOf c < 128)%Z as Hlow by (unfold byteOf; lia).
  destruct (Z.ltb_spec (byteOf c) 0xC2); [|lia].
  by destruct (Z.ltb_spec (byteOf c) 0x80); [|lia].
Qed.

Lemma runesAux_ascii l :
  Forall (λ c, (code c < 128)%N) l → runesAux l 0 = byteOf <$> l.
Proof.
  induction 1 as [|c l Hc _ IH]; [done|].
  cbn [runesAux]. rewrite DecodeRune_ascii by done.
  change (1 - 1) with 0. by rewrite IH.
Qed.

Lemma ToUpperRune_ascii (U1 U2 : UnicodeTables) r :
  (r ≤ MaxASCII)%Z → @ToUpperRune U1 r = @ToUpperRune U2 r.
Proof.
  intros Hr. unfold ToUpperRune.
  by destruct (Z.leb_spec r MaxASCII); [|lia].
Qed.

Lemma ToTitleRune_ascii (U1 U2 : UnicodeTables) r :
  (r ≤ MaxASCII)%Z → @ToTitleRune U1 r = @ToTitleRune U2 r.
Proof.
  intros Hr. unfold ToTitleRune.
  by destruct (Z.leb_spec r MaxASCII); [|lia].
Qed.

Lemma isSeparator_ascii (U1 U2 : UnicodeTables) r :
  (r ≤ MaxASCII)%Z → @isSeparator U1 r = @isSeparator U2 r.
Proof.
  intros Hr. unfold isSeparator, MaxASCII in *.
  by destruct (Z.leb_spec r 0x7F); [|lia].
Qed.

Lemma titleAux_ascii (U1 U2 : UnicodeTables) prev l :
  (prev ≤ MaxASCII)%Z → Forall (λ r, (r ≤ MaxASCII)%Z) l →
  @titleAux U1 prev l = @titleAux U2 prev l.
Proof.
  intros Hprev Hl. revert prev Hprev.
  induction Hl as [|r l Hr _ IH]; intros prev Hprev; [done|].
  cbn [titleAux].
  by rewrite (isSeparator_ascii U1 U2 prev), (ToTitleRune_ascii U1 U2 r),
    IH.
Qed.

Lemma runes_ascii s :
  asciiOnly s →
  runes s = byteOf <$> chars s
  ∧ Forall (λ r, (r ≤ MaxASCII)%Z) (runes s).
Proof.
  intros Hs. unfold runes. rewrite runesAux_ascii by done.
  split; [done|]. apply Forall_fmap.
  eapply Forall_impl; [exact Hs|]. intros c Hc.
  unfold MaxASCII, byteOf, compose. cbv beta in Hc |- *. lia.
Qed.

Lemma upperFirst_ascii (U1 U2 : UnicodeTables) word :
  asciiOnly word → @upperFirst U1 word = @upperFirst U2 word.
Proof.
  intros [_ Hrunes]%runes_ascii. unfold upperFirst.
  destruct (runes word) as [|r rest]; [done|].
  apply Forall_cons in Hrunes as [Hr _].
  by rewrite (ToUpperRune_ascii U1 U2 r).
Qed.

Lemma Title_ascii (U1 U2 : UnicodeTables) word :
  asciiOnly word → @Title U1 word = @Title U2 word.
Proof.
  intros [_ Hrunes]%runes_ascii. unfold Title.
  by rewrite (titleAux_ascii U1 U2 0x20%Z (runes word)).
Qed.

Lemma flush_Forall (P : ascii → Prop) cur :
  Forall P cur → Forall (λ field, Forall P (chars field)) (flush cur).
Proof.
  intros Hcur. destruct cur as [|c cur]; [constructor|].
  apply Forall_singleton. rewrite chars_str.
  apply Forall_forall. intros x Hx%list_elem_of_In.
  apply in_rev in Hx. apply list_elem_of_In in Hx.
  by eapply Forall_forall in Hcur.
Qed.

(** The fields of [FieldsFunc] are made of bytes of the string. *)
Lemma FieldsFunc_Forall (P : ascii → Prop) s f :
  Forall P (chars s) →
  Forall (λ field, Forall P (chars field)) (FieldsFunc s f).
Proof.
  unfold FieldsFunc. intros Hs.
  assert (Forall P (@nil ascii)) as Hcur by constructor.
  revert Hcur. generalize (@nil ascii) as cur.
  induction Hs as [|c l Hc _ IH]; intros cur Hcur; simpl.
  - by apply flush_Forall.
  - destruct (f c) eqn:Hfc.
    + apply Forall_app. split; [by apply flush_Forall|].
      apply IH. constructor.
    + apply IH. by constructor.
Qed.

(** The names that [parseElement] captures are of ASCII bytes. *)
Lemma wordName_asciiOnly name : wordName name → asciiOnly name.
Proof.
  intros [_ Hname]. eapply Forall_impl; [exact Hname|]. intros c.
  unfold class_w_dash, class_w, in_range.
  rewrite !orb_true_iff, !andb_true_iff, !N.leb_le, !N.eqb_eq. lia.
Qed.

(** X17.  For a name or a type of ASCII bytes only, the identifiers and
    the Go type do not depend on the tables of Unicode: the generator
    never consults them.  (Every element name of a parse result is such a
    name, by [wordName_asciiOnly].) *)
Theorem ascii_names_ignore_tables (U1 U2 : UnicodeTables) (name : string) :
  asciiOnly name →
  @toGoFieldName U1 name = @toGoFieldName U2 name
  ∧ @toGoStructName U1 name = @toGoStructName U2 name
  ∧ @getGoType U1 name = @getGoType U2 name.
Proof.
  intros Hname.
  pose proof (FieldsFunc_Forall _ name isDashOrUnderscore Hname) as Hwords.
  assert ((λ word, if (0 <? String.length word)%nat
                   then upperFirst (U := U1) word else EmptyString)
          <$> FieldsFunc name isDashOrUnderscore
          = (λ word, if (0 <? String.length word)%nat
                     then upperFirst (U := U2) word else EmptyString)
            <$> FieldsFunc name isDashOrUnderscore) as Hupper.
  { apply Forall_fmap_ext. eapply Forall_impl; [exact Hwords|].
    intros word Hword. cbv beta.
    by rewrite (upperFirst_ascii U1 U2 word). }
  assert ((λ word, if (0 <? String.length word)%nat
                   then Title (U := U1) word else EmptyString)
          <$> FieldsFunc name isDashOrUnderscore
          = (λ word, if (0 <? String.length word)%nat
                     then Title (U := U2) word else EmptyString)
            <$> FieldsFunc name isDashOrUnderscore) as Htitle.
  { apply Forall_fmap_ext. eapply Forall_impl; [exact Hwords|].
    intros word Hword. cbv beta.
    by rewrite (Title_ascii U1 U2 word). }
  split; [|split].
  - unfold toGoFieldName. by rewrite Hupper.
  - unfold toGoStructName. by rewrite Htitle.
  - unfold getGoType, ToUpper.
    assert (forallb (λ c, (code c <? 128)%N) (chars name) = true) as ->; [|done].
    apply forallb_forall. intros c Hc%list_elem_of_In.
    eapply Forall_forall in Hname; [|exact Hc]. by apply N.ltb_lt.
Qed.

(** Two tables that differ everywhere above U+007F: those of Latin-1, and
    tables that give [-] and [_] for every rune. *)
Lemma ascii_names_ignore_tables_witness :
  let dashes : UnicodeTables :=
    {| toUpperCase := λ _, 0x2D%Z; toTitleCase := λ _, 0x5F%Z;
       isLetter := λ _, false; isDigit := λ _, true |} in
  asciiOnly "xml-lang_2"
  ∧ (@toGoFieldName latin1 "xml-lang_2" = @toGoFieldName dashes "xml-lang_2"
     ∧ @toGoStructName latin1 "xml-lang_2" = @toGoStructName dashes "xml-lang_2"
     ∧ @getGoType latin1 "xml-lang_2" = @getGoType dashes "xml-lang_2")
  ∧ @toGoFieldName latin1 "xml-lang_2" = "XmlLang2"
  ∧ @getGoType latin1 "idrefs" = "[]string".
Proof.
  intros dashes.
  assert (asciiOnly "xml-lang_2") as H by (repeat constructor).
  split; [exact H|].
  split; [exact (ascii_names_ignore_tables latin1 dashes "xml-lang_2" H)|].
  split; by vm_compute.
Defined.
(** * The UTF-8 of identifiers *)

Local Open Scope Z_scope.

Lemma toByte_byteOf z c : z = byteOf c → toByte z = c.
Proof.
  intros ->. unfold toByte, low8, byteOf, code.
  pose proof (N_ascii_bounded c).
  rewrite Z.mod_small by lia. rewrite N2Z.id. apply ascii_N_embedding.
Qed.

Ltac sums4 :=
  repeat match goal with
  | |- context [Z.lor ?x ?b] =>
      first [ rewrite (lor_low x b 6) by (change (2 ^ 6) with 64; modlia)
            | rewrite (lor_low x b 4) by (change (2 ^ 4) with 16; modlia)
            | rewrite (lor_low x b 12) by (change (2 ^ 12) with 4096; modlia)
            | rewrite (lor_low x b 18)
                by (change (2 ^ 18) with 262144; modlia) ]
  end.

Ltac shifts :=
  rewrite ?Z.shiftr_div_pow2 by lia;
  change (2 ^ 6) with 64; change (2 ^ 12) with 4096;
  change (2 ^ 18) with 262144.

Ltac encoded :=
  unfold firstTable, RuneError; branches; cbn [fst snd];
  intros Hvalid; try (exfalso; destruct Hvalid as [Hvalid|Hvalid]; [cbn in Hvalid; lia|done]);
  clear Hvalid; masks; sums;
  unfold EncodeRune, encode, low8, MaxRune, RuneError;
  rewrite (Z.mod_small _ (2 ^ 32)) by modlia;
  bools; cbn [fmap list_fmap take];
  repeat (f_equal; try (apply toByte_byteOf; shifts; masks; sums4; modlia)).

(** Encoding the rune that was read gives back the bytes it was read
    from, for every rune but the [RuneError] of a byte that is no rune. *)
Lemma EncodeRune_DecodeRune l :
  (1 < (DecodeRune l).2)%nat ∨ (DecodeRune l).1 ≠ RuneError →
  EncodeRune (DecodeRune l).1 = take (DecodeRune l).2 l.
Proof.
  destruct l as [|c0 l]; [by intros [?|?]; cbn in *; [lia|]|].
  unfold DecodeRune, byteAt.
  pose proof (byteOf_range c0) as H0.
  destruct l as [|c1 l].
  { cbn [length nth]. encoded. }
  pose proof (byteOf_range c1) as H1. cbn [nth].
  destruct l as [|c2 l].
  { cbn [length nth]. encoded. }
  pose proof (byteOf_range c2) as H2. cbn [nth].
  destruct l as [|c3 l].
  { cbn [length nth]. encoded. }
  pose proof (byteOf_range c3) as H3. cbn [nth length].
  encoded.
Qed.

(** Reading the encoding of a code point, no surrogate, gives the code
    point and the length of the encoding. *)
Lemma DecodeRune_EncodeRune r rest :
  0 ≤ r ≤ MaxRune → ¬ (0xD800 ≤ r ≤ 0xDFFF) →
  DecodeRune (EncodeRune r ++ rest) = (r, length (EncodeRune r)).
Proof.
  unfold MaxRune. intros Hr Hsur.
  unfold EncodeRune, encode, low8, MaxRune, RuneError.
  rewrite (Z.mod_small r (2 ^ 32)) by lia.
  branches; try lia; cbn [fmap list_fmap app length];
    unfold DecodeRune, byteAt; cbn [nth length];
    shifts; masks; sums4;
    rewrite !byteOf_toByte by modlia;
    unfold firstTable; branches; try (exfalso; modlia);
    masks; sums; f_equal; modlia.
Qed.

Local Close Scope Z_scope.

Lemma DecodeRune_width l :
  l ≠ [] → (1 ≤ (DecodeRune l).2 ≤ length l)%nat.
Proof.
  destruct l as [|c0 l]; [done|]. intros _.
  unfold DecodeRune. destruct (firstTable (byteOf c0)) as [[sz [lo hi]]|] eqn:Hf;
    [|cbn [snd length]; lia].
  assert (sz = 2 ∨ sz = 3 ∨ sz = 4)%nat as Hsz.
  { unfold firstTable in Hf.
    repeat match type of Hf with
    | (if ?b then _ else _) = _ => destruct b
    end; simplify_eq; auto. }
  destruct (Nat.ltb_spec (length (c0 :: l)) sz); [cbn [snd length]; lia|].
  destruct Hsz as [->|[->| ->]]; cbn [Nat.leb];
    repeat match goal with
    | |- context [if ?b then _ else _] => destruct b
    end; cbn [snd length] in *; lia.
Qed.

(** [string([]rune(s))] is [s] when [s] is well-formed UTF-8. *)
Lemma runes_valid l skip :
  validAux l skip = true → (skip ≤ length l)%nat →
  flat_map EncodeRune (runesAux l skip) = drop skip l.
Proof.
  revert skip. induction l as [|c l IH]; intros skip Hvalid Hskip.
  { by destruct skip. }
  cbn [validAux runesAux] in *. destruct skip as [|k].
  - pose proof (DecodeRune_width (c :: l) ltac:(done)) as Hw.
    pose proof (EncodeRune_DecodeRune (c :: l)) as Hround.
    destruct (DecodeRune (c :: l)) as [r width]. cbn [fst snd length] in *.
    apply andb_true_iff in Hvalid as [Hrune Hvalid].
    cbn [flat_map]. rewrite IH by (done || lia).
    rewrite Hround.
    + destruct width as [|width]; [lia|]. cbn [take drop Nat.sub].
      rewrite Nat.sub_0_r, <- app_comm_cons. f_equal. apply take_drop.
    + apply orb_true_iff in Hrune as [Hrune|Hrune].
      * left. by apply Nat.ltb_lt.
      * right. apply negb_true_iff in Hrune. by apply Z.eqb_neq.
  - cbn [drop]. apply IH; [done|]. cbn [length] in Hskip. lia.
Qed.

Lemma fieldsAux_word (f : ascii → bool) l cur :
  Forall (λ c, f c = false) l →
  fieldsAux (λ l, match l with c :: _ => if f c then 1 else 0 | [] => 0 end)
            l 0 cur
  = flush (rev l ++ cur).
Proof.
  intros Hl. revert cur. induction Hl as [|c l Hc _ IH]; intros cur; [done|].
  cbn [fieldsAux]. rewrite Hc, IH. cbn [rev]. by rewrite <- app_assoc.
Qed.

Lemma FieldsFunc_word (f : ascii → bool) word :
  word ≠ EmptyString → Forall (λ c, f c = false) (chars word) →
  FieldsFunc word f = [word].
Proof.
  intros Hword Hchars. unfold FieldsFunc. rewrite fieldsAux_word by done.
  rewrite app_nil_r. destruct (rev (chars word)) as [|c l] eqn:Hrev.
  - apply (f_equal (@length ascii)) in Hrev. rewrite length_rev in Hrev.
    destruct word; done.
  - cbn [flush]. rewrite <- Hrev, rev_involutive. f_equal.
    apply String.string_of_list_ascii_of_string.
Qed.

Lemma EncodeRune_nonempty r : EncodeRune r ≠ [].
Proof.
  unfold EncodeRune, encode.
  repeat match goal with
  | |- context [if ?b then _ else _] => destruct b
  end; done.
Qed.

(** X18.  The field name of a name that has no [-] and no [_] and is
    well-formed UTF-8 is the name with its first rune in upper case: the
    encoding of [unicode.ToUpper] of the first rune, then the bytes after
    the first rune as they are. *)
Theorem field_name_of_word {U : UnicodeTables} (word : string) :
  word ≠ EmptyString →
  Forall (λ c, isDashOrUnderscore c = false) (chars word) →
  ValidString word = true →
  toGoFieldName word
  = str (EncodeRune (ToUpperRune (DecodeRune (chars word)).1)
         ++ drop (DecodeRune (chars word)).2 (chars word)).
Proof.
  intros Hword Hchars Hvalid. unfold toGoFieldName.
  rewrite FieldsFunc_word by done. cbn [fmap list_fmap writeAll foldr].
  rewrite append_nil_r.
  destruct (Nat.ltb_spec 0 (String.length word)) as [_|Hlen];
    [|destruct word; [done|cbn in Hlen; lia]].
  assert (upperFirst word
          = str (EncodeRune (ToUpperRune (DecodeRune (chars word)).1)
                 ++ drop (DecodeRune (chars word)).2 (chars word))) as ->.
  { unfold upperFirst, runes, ValidString in *.
    destruct (chars word) as [|c l] eqn:Hl; [by destruct word|].
    cbn [runesAux validAux] in *.
    pose proof (DecodeRune_width (c :: l) ltac:(done)) as Hw.
    destruct (DecodeRune (c :: l)) as [r width]. cbn [fst snd length] in *.
    apply andb_true_iff in Hvalid as [_ Hvalid].
    unfold stringOfRunes. cbn [flat_map]. f_equal. f_equal.
    rewrite runes_valid by (done || lia).
    destruct width as [|width]; [lia|]. cbn [drop Nat.sub].
    by rewrite Nat.sub_0_r. }
  destruct (str _ =? EmptyString) eqn:He; [|done].
  apply eqb_true, str_nil in He. apply app_eq_nil in He as [He _].
  by apply EncodeRune_nonempty in He.
Qed.

(** U+00E9 followed by [lan], with the tables of Latin-1. *)
Lemma field_name_of_word_witness :
  let U := latin1 in
  let word := String "195" (String "169" "lan") in
  (word ≠ EmptyString
   ∧ Forall (λ c, isDashOrUnderscore c = false) (chars word)
   ∧ ValidString word = true)
  ∧ toGoFieldName word
    = str (EncodeRune (ToUpperRune (DecodeRune (chars word)).1)
           ++ drop (DecodeRune (chars word)).2 (chars word))
  ∧ toGoFieldName word = String "195" (String "137" "lan")
  ∧ toGoFieldName "author" = "Author"
  ∧ ValidString (String "255" "x") = false.
Proof.
  intros U word.
  assert (word ≠ EmptyString) as H1 by done.
  assert (Forall (λ c, isDashOrUnderscore c = false) (chars word)) as H2
    by (repeat constructor).
  assert (ValidString word = true) as H3 by (by vm_compute).
  split; [done|]. split; [exact (field_name_of_word word H1 H2 H3)|].
  repeat split; by vm_compute.
Defined.
